(** * aleph: common/util and the [publishRaw] / [oracle] command handlers

    A shallow embedding of [src/common/util.js] (promise helpers and the
    multihash helpers) and of the two command handlers, together with the
    properties the design document states about them.

    Conventions.
    - A Node [Buffer] is a [list byte]; a JavaScript string is a [string]
      of 8-bit characters (a character beyond them is outside the base58
      alphabet in any case).
    - An object used as a dictionary is a [gmap] from property names to
      values; the property name [__proto__], which JavaScript treats
      specially, is outside the model.
    - A function that may [throw] returns a [result]; [try { .. } catch]
      is a [match] on it.
    - Big numbers (the value of a byte string read as a big-endian integer)
      are in [N]; 32-bit words are in [N] with the wrap-around written out. *)

From Stdlib Require Import NArith ZArith List String Ascii Lia.
From Stdlib Require Import Strings.Byte DecimalString.
From Stdlib Require DecimalZ.
From stdpp Require Import gmap strings list fin_maps.
Import ListNotations.

Local Open Scope N_scope.

(** ** JavaScript errors

    [new Error(message)] has [errName = "Error"]; the runtime's
    [ReferenceError] and the failure kinds of the design document are told
    apart by [errName]. *)

Record jsError : Type := mkError { errName : string; message : string }.

Definition Error (msg : string) : jsError := mkError "Error" msg.

(** Reading an identifier that no enclosing scope declares. *)
Definition ReferenceError (ident : string) : jsError :=
  mkError "ReferenceError" (ident +:+ " is not defined").

(** ** Results of calls that may throw *)

Inductive result (E A : Type) : Type :=
| Returns (a : A)
| Throws (e : E).
Arguments Returns {E A} a.
Arguments Throws {E A} e.

Definition bind_result {E A B} (r : result E A) (k : A -> result E B) : result E B :=
  match r with
  | Returns a => k a
  | Throws e => Throws e
  end.

Notation "'do' x <- r ; k" := (bind_result r (fun x => k))
  (at level 10, x name, r at level 100, k at level 200).

(** ** The packages under the multihash helpers

    [b58MultihashForBuffer] and [isB58Multihash] call Node's [crypto] and
    the [multihashes] package, which encodes with [bs58].  None of the three
    belongs to the repository; the modules [SHA256], [Base58] and
    [Multihash] give what each of them computes: SHA-256 as FIPS 180-4
    defines it, base58 with the Bitcoin alphabet, and the multihash layout
    of a one-byte function code, a one-byte length and the digest, as the
    releases of [multihashes] of the time of the repository check it. *)

(** ** Bytes and positional number systems *)

Module Bytes.

(** The byte whose value is [n mod 256]. *)
Definition of_N_wrap (n : N) : byte :=
  match Byte.of_N (n mod 256) with
  | Some b => b
  | None => x00
  end.

(** Value of a big-endian digit string in base [base]. *)
Definition from_digits (base : N) (ds : list N) : N :=
  fold_left (fun acc d => acc * base + d) ds 0.

(** Little-endian digits of [n], at most [fuel] of them. *)
Fixpoint to_digits_le (fuel : nat) (base n : N) : list N :=
  match fuel with
  | O => []
  | S fuel' =>
      if n =? 0 then []
      else (n mod base) :: to_digits_le fuel' base (n / base)
  end.

(** Big-endian digits of [n] without leading zero digit; [0] has no
    digit.  The binary size of [n] bounds the number of digits in any
    base from 2 on. *)
Definition to_digits (base n : N) : list N :=
  rev (to_digits_le (N.to_nat (N.size n)) base n).

(** Value of a little-endian digit string (used to reason about
    [to_digits_le]). *)
Fixpoint value_le (base : N) (ds : list N) : N :=
  match ds with
  | [] => 0
  | d :: ds' => d + base * value_le base ds'
  end.

(** A big-endian digit string is canonical when it has no leading zero. *)
Definition canonical (ds : list N) : Prop := hd_error ds <> Some 0.

(** Number of zero digits at the front. *)
Fixpoint leading_zeros (ds : list N) : nat :=
  match ds with
  | 0 :: ds' => S (leading_zeros ds')
  | _ => O
  end.

(** The four bytes of a 32-bit word, most significant first. *)
Definition word_to_bytes (w : N) : list byte :=
  [ of_N_wrap (N.shiftr w 24); of_N_wrap (N.shiftr w 16);
    of_N_wrap (N.shiftr w 8); of_N_wrap w ].

(** [bytes] cut into consecutive groups of [n] (the last may be short). *)
Fixpoint chunks_fuel (fuel n : nat) (bytes : list N) : list (list N) :=
  match fuel with
  | O => []
  | S fuel' =>
      match bytes with
      | [] => []
      | _ => firstn n bytes :: chunks_fuel fuel' n (skipn n bytes)
      end
  end.

Definition chunks (n : nat) (bytes : list N) : list (list N) :=
  chunks_fuel (length bytes) n bytes.

End Bytes.

(** ** SHA-256, what [crypto.createHash('sha256')] computes *)

Module SHA256.

Definition wrap32 (x : N) : N := x mod 2 ^ 32.
Definition add32 (x y : N) : N := wrap32 (x + y).
Definition rotr (n x : N) : N :=
  N.lor (N.shiftr x n) (wrap32 (N.shiftl x (32 - n))).
Definition not32 (x : N) : N := N.lxor x (2 ^ 32 - 1).

Definition Ch (x y z : N) : N := N.lxor (N.land x y) (N.land (not32 x) z).
Definition Maj (x y z : N) : N :=
  N.lxor (N.lxor (N.land x y) (N.land x z)) (N.land y z).
Definition Sigma0 (x : N) : N := N.lxor (N.lxor (rotr 2 x) (rotr 13 x)) (rotr 22 x).
Definition Sigma1 (x : N) : N := N.lxor (N.lxor (rotr 6 x) (rotr 11 x)) (rotr 25 x).
Definition sigma0 (x : N) : N := N.lxor (N.lxor (rotr 7 x) (rotr 18 x)) (N.shiftr x 3).
Definition sigma1 (x : N) : N := N.lxor (N.lxor (rotr 17 x) (rotr 19 x)) (N.shiftr x 10).

(** The first 64 primes. *)
Definition primes : list N :=
  [ 2; 3; 5; 7; 11; 13; 17; 19; 23; 29; 31; 37; 41; 43; 47; 53; 59; 61; 67; 71;
    73; 79; 83; 89; 97; 101; 103; 107; 109; 113; 127; 131; 137; 139; 149; 151;
    157; 163; 167; 173; 179; 181; 191; 193; 197; 199; 211; 223; 227; 229; 233;
    239; 241; 251; 257; 263; 269; 271; 277; 281; 283; 293; 307; 311 ].

(** Integer cube root, one bit at a time from [bit] down. *)
Fixpoint cbrt_bits (fuel : nat) (bit acc n : N) : N :=
  match fuel with
  | O => acc
  | S fuel' =>
      let c := acc + bit in
      cbrt_bits fuel' (bit / 2) (if c * c * c <=? n then c else acc) n
  end.

Definition cbrt (n : N) : N := cbrt_bits 36 (2 ^ 35) 0 n.

(** The round constants: the first 32 bits of the fractional parts of the
    cube roots of the first 64 primes. *)
Definition K : list N :=
  Eval vm_compute in List.map (fun p => wrap32 (cbrt (p * 2 ^ 96))) primes.

(** The eight working variables / the intermediate hash value. *)
Record state : Type := State {
  ha : N; hb : N; hc : N; hd : N; he : N; hf : N; hg : N; hh : N
}.

(** The initial hash value: the first 32 bits of the fractional parts of
    the square roots of the first 8 primes. *)
Definition frac_sqrt (p : N) : N := wrap32 (N.sqrt (p * 2 ^ 64)).

Definition H0 : state :=
  Eval vm_compute in
  State (frac_sqrt 2) (frac_sqrt 3) (frac_sqrt 5) (frac_sqrt 7)
        (frac_sqrt 11) (frac_sqrt 13) (frac_sqrt 17) (frac_sqrt 19).

(** Padding: a 1 bit, zero bits up to 56 mod 64 bytes, the bit length on
    64 bits. *)
Definition pad (msg : list N) : list N :=
  let len := N.of_nat (length msg) in
  let zeros := (64 + 55 - len mod 64) mod 64 in
  let bits := len * 8 in
  msg ++ [0x80] ++ repeat 0 (N.to_nat zeros)
      ++ map (fun i => N.shiftr bits (8 * i) mod 256) [7; 6; 5; 4; 3; 2; 1; 0].

(** Message schedule: the 16 words of the block followed by 48 derived
    ones. *)
Fixpoint extend (n : nat) (w : list N) : list N :=
  match n with
  | O => w
  | S n' =>
      let t := length w in
      let at_ k := nth (t - k) w 0 in
      extend n' (w ++ [ add32 (add32 (sigma1 (at_ 2%nat)) (at_ 7%nat))
                              (add32 (sigma0 (at_ 15%nat)) (at_ 16%nat)) ])
  end.

Definition schedule (block : list N) : list N :=
  extend 48 (map (Bytes.from_digits 256) (Bytes.chunks 4 block)).

Definition round (s : state) (kw : N * N) : state :=
  let (k, w) := kw in
  let t1 := add32 (add32 (add32 (hh s) (Sigma1 (he s))) (add32 (Ch (he s) (hf s) (hg s)) k)) w in
  let t2 := add32 (Sigma0 (ha s)) (Maj (ha s) (hb s) (hc s)) in
  State (add32 t1 t2) (ha s) (hb s) (hc s) (add32 (hd s) t1) (he s) (hf s) (hg s).

Definition compress (h : state) (block : list N) : state :=
  let s := fold_left round (combine K (schedule block)) h in
  State (add32 (ha h) (ha s)) (add32 (hb h) (hb s)) (add32 (hc h) (hc s))
        (add32 (hd h) (hd s)) (add32 (he h) (he s)) (add32 (hf h) (hf s))
        (add32 (hg h) (hg s)) (add32 (hh h) (hh s)).

Definition digest_of_state (s : state) : list byte :=
  concat (map Bytes.word_to_bytes
              [ha s; hb s; hc s; hd s; he s; hf s; hg s; hh s]).

(** [hash.update(buf); hash.digest()] *)
Definition sha256 (buf : list byte) : list byte :=
  digest_of_state
    (fold_left compress (Bytes.chunks 64 (pad (map Byte.to_N buf))) H0).

End SHA256.

(** ** Base58 (the [bs58] package, Bitcoin alphabet) *)

Module Base58.

Definition ALPHABET : string :=
  "123456789ABCDEFGHJKLMNPQRSTUVWXYZabcdefghijkmnopqrstuvwxyz".

Definition BASE : N := 58.

(** [ALPHABET[d]] *)
Definition digit_char (d : N) : ascii :=
  nth (N.to_nat d) (list_ascii_of_string ALPHABET) "1"%char.

Fixpoint index_of (c : ascii) (l : list ascii) (i : N) : option N :=
  match l with
  | [] => None
  | x :: l' => if Ascii.eqb c x then Some i else index_of c l' (i + 1)
  end.

(** [ALPHABET_MAP[c]], [None] for a character outside the alphabet. *)
Definition char_digit (c : ascii) : option N :=
  index_of c (list_ascii_of_string ALPHABET) 0.

Fixpoint chars_digits (cs : list ascii) : option (list N) :=
  match cs with
  | [] => Some []
  | c :: cs' =>
      match char_digit c, chars_digits cs' with
      | Some d, Some ds => Some (d :: ds)
      | _, _ => None
      end
  end.

(** [bs58.encode]: every leading zero byte becomes the character ['1'],
    the rest is the big-endian number written in base 58. *)
Definition encode (buf : list byte) : string :=
  let ns := map Byte.to_N buf in
  string_of_list_ascii
    (repeat "1"%char (Bytes.leading_zeros ns)
     ++ map digit_char (Bytes.to_digits BASE (Bytes.from_digits 256 ns))).

(** [bs58.decode]: throws on a character outside the alphabet. *)
Definition decode (s : string) : result jsError (list byte) :=
  match chars_digits (list_ascii_of_string s) with
  | None => Throws (Error "Non-base58 character")
  | Some ds =>
      Returns (repeat x00 (Bytes.leading_zeros ds)
               ++ map Bytes.of_N_wrap
                      (Bytes.to_digits 256 (Bytes.from_digits BASE ds)))
  end.

End Base58.


(** ** Multihash (the [multihashes] package) *)

Module Multihash.

(** The table of hash functions: name and one-byte code. *)
Definition names : list (string * N) :=
  [ ("sha1", 0x11); ("sha2-256", 0x12); ("sha2-512", 0x13);
    ("sha3", 0x14); ("blake2b", 0x40); ("blake2s", 0x41) ]%string.

Definition name_code (name : string) : option N :=
  snd <$> find (fun nc => String.eqb (fst nc) name) names.

Definition code_name (code : N) : option string :=
  fst <$> find (fun nc => snd nc =? code) names.

(** Codes reserved for application use. *)
Definition isAppCode (code : N) : bool := (0 <? code) && (code <? 0x10).

Definition isValidCode (code : N) : bool :=
  isAppCode code || bool_decide (is_Some (code_name code)).

Definition coerceCode (name : string) : result jsError N :=
  match name_code name with
  | None => Throws (Error ("Unrecognized hash function named: " +:+ name))
  | Some code => Returns code
  end.

(** [Multihash.encode(digest, name)]: the function code, the digest
    length, the digest. *)
Definition encode (digest : list byte) (name : string) : result jsError (list byte) :=
  do hashfn <- coerceCode name;
  let len := N.of_nat (length digest) in
  if 127 <? len
  then Throws (Error "multihash does not yet support digest lengths greater than 127 bytes.")
  else Returns (Bytes.of_N_wrap hashfn :: Bytes.of_N_wrap len :: digest).

(** [Multihash.validate(multihash)]: returns normally on a well-formed
    multihash, throws otherwise (the two last messages end, in the
    package, with a hexadecimal dump that is left out here). *)
Definition validate (multihash : list byte) : result jsError unit :=
  if (length multihash <? 3)%nat
  then Throws (Error "multihash too short. must be > 3 bytes.")
  else if (129 <? length multihash)%nat
  then Throws (Error "multihash too long. must be < 129 bytes.")
  else
    match multihash with
    | code :: len :: digest =>
        if negb (isValidCode (Byte.to_N code))
        then Throws (Error "multihash unknown function code")
        else if negb (N.of_nat (length digest) =? Byte.to_N len)
        then Throws (Error "multihash length inconsistent")
        else Returns tt
    | _ => Throws (Error "multihash too short. must be > 3 bytes.")
    end.

Definition toB58String (multihash : list byte) : string :=
  Base58.encode multihash.

Definition fromB58String (hash : string) : result jsError (list byte) :=
  Base58.decode hash.

(** What [Multihash.decode] returns. *)
Record decoded : Type := Decoded {
  code : N;
  name : option string;
  length : N;
  digest : list byte
}.

Definition decode (buf : list byte) : result jsError decoded :=
  do _ <- validate buf;
  match buf with
  | c :: l :: d =>
      Returns (Decoded (Byte.to_N c) (code_name (Byte.to_N c)) (Byte.to_N l) d)
  | _ => Throws (Error "multihash too short. must be > 3 bytes.")
  end.

End Multihash.

(** ** [common/util]: multihash helpers *)

(** [b58MultihashForBuffer(buf)] *)
Definition b58MultihashForBuffer (buf : list byte) : result jsError string :=
  let digest := SHA256.sha256 buf in
  do mh <- Multihash.encode digest "sha2-256";
  Returns (Multihash.toB58String mh).

(** [isB58Multihash(str)]: the [try] body either returns [true] or throws,
    and the [catch] turns any throw into [false]. *)
Definition isB58Multihash (str : string) : bool :=
  match (do h <- Multihash.fromB58String str;
         do _ <- Multihash.validate h;
         Returns true) with
  | Returns b => b
  | Throws _ => false
  end.

(** ** The design document's MultihashCodec

    The document names the helpers [digestOf], [parse] and [isValid] and
    has them work on a content reference; these definitions follow its
    words, on top of the functions above. *)

Module MultihashCodec.

Record ContentReference : Type := Reference {
  hashFunction : N;
  digestBytes : list byte;
  textEncoding : string
}.

(** Hashes the input with sha2-256, wraps the digest with the
    hash-function tag and returns the canonical base58 text form. *)
Definition digestOf (bytes : list byte) : result jsError ContentReference :=
  do hashfn <- Multihash.coerceCode "sha2-256";
  do text <- b58MultihashForBuffer bytes;
  Returns (Reference hashfn (SHA256.sha256 bytes) text).

(** Decodes a base58 string into a tagged digest; fails when the string
    is not base58, when the length does not match the declared one, or
    when the tag is not recognized. *)
Definition parse (text : string) : result jsError ContentReference :=
  do mh <- Multihash.fromB58String text;
  do d <- Multihash.decode mh;
  Returns (Reference (Multihash.code d) (Multihash.digest d)
                     (Multihash.toB58String mh)).

(** The predicate form of [parse]. *)
Definition isValid (text : string) : bool := isB58Multihash text.

End MultihashCodec.

(** ** Promises

    The fate of a promise, seen from the instant of the call under study:
    [None] when it stays pending for ever, [Some (t, s)] when it settles
    with [s] after [t] milliseconds ([t = 0]: already settled). *)

Module Promise.

Inductive settlement (A : Type) : Type :=
| Fulfilled (value : A)
| Rejected (reason : jsError).
Arguments Fulfilled {A} value.
Arguments Rejected {A} reason.

Definition promise (A : Type) : Type := option (nat * settlement A).

(** [p.then(onFulfilled)] for a callback that does not throw. *)
Definition then_ {A B} (p : promise A) (onFulfilled : A -> B) : promise B :=
  match p with
  | Some (t, Fulfilled v) => Some (t, Fulfilled (onFulfilled v))
  | Some (t, Rejected e) => Some (t, Rejected e)
  | None => None
  end.

(** The value of a promise that is fulfilled. *)
Definition fulfilled_value {A} (p : promise A) : option A :=
  match p with
  | Some (_, Fulfilled v) => Some v
  | _ => None
  end.

Definition is_rejected {A} (p : promise A) : bool :=
  match p with
  | Some (_, Rejected _) => true
  | _ => false
  end.

(** The first of [ps] to settle; of two that settle at the same instant
    the one that comes first in the array, whose reaction was queued
    first. *)
Fixpoint earliest {A} (ps : list (promise A)) : promise A :=
  match ps with
  | [] => None
  | p :: ps' =>
      match p, earliest ps' with
      | None, q => q
      | Some x, None => Some x
      | Some (t, s), Some (t', s') =>
          if (t <=? t')%nat then Some (t, s) else Some (t', s')
      end
  end.

(** [Promise.race(ps)] *)
Definition race {A} (ps : list (promise A)) : promise A := earliest ps.

(** All the values and the instant of the last one, when every promise
    is fulfilled. *)
Fixpoint fulfilled_values {A} (ps : list (promise A)) : option (nat * list A) :=
  match ps with
  | [] => Some (O, [])
  | Some (t, Fulfilled v) :: ps' =>
      match fulfilled_values ps' with
      | Some (t', vs) => Some (Nat.max t t', v :: vs)
      | None => None
      end
  | _ => None
  end.

(** [Promise.all(ps)]: rejected as soon as one of [ps] is, fulfilled
    once all of them are, pending otherwise. *)
Definition all {A} (ps : list (promise A)) : promise (list A) :=
  match earliest (filter (fun p => is_rejected p = true) ps) with
  | Some (t, Rejected e) => Some (t, Rejected e)
  | _ =>
      match fulfilled_values ps with
      | Some (t, vs) => Some (t, Fulfilled vs)
      | None => None
      end
  end.

(** The delay [setTimeout(cb, timeout)] really waits: Node sets a delay
    below 1 or above 2147483647 to 1. *)
Definition setTimeout_delay (timeout : Z) : nat :=
  if ((timeout <? 1) || (2147483647 <? timeout))%Z then 1%nat
  else Z.to_nat timeout.

(** [new Promise((resolve, reject) => setTimeout(() => reject(e), timeout))] *)
Definition rejected_after {A} (timeout : Z) (e : jsError) : promise A :=
  Some (setTimeout_delay timeout, Rejected e).

End Promise.

Import Promise.

(** [`${n}`] for an integer [n]. *)
Definition number_to_string (n : Z) : string :=
  NilZero.string_of_int (Z.to_int n).

(** ** [common/util]: promise helpers *)

(** [keys[idx]]; a missing index reads [undefined], which becomes the
    property name ["undefined"]. *)
Definition key_at (keys : list string) (idx : nat) : string :=
  default "undefined"%string (keys !! idx).

(** [promiseHash(hash)] *)
Definition promiseHash {A} (hash : gmap string (promise A)) : promise (gmap string A) :=
  let keys := (map_to_list hash).*1 in
  let vals := (fun k => hash !!! k) <$> keys in
  then_ (Promise.all vals) (fun resolved =>
    foldl (fun (result : gmap string A) '(idx, r) => <[key_at keys idx := r]> result)
          ∅ (imap (fun idx r => (idx, r)) resolved)).

(** The error [promiseTimeout] rejects with. *)
Definition TimeoutExceeded (timeout : Z) : jsError :=
  Error ("Timeout of " +:+ number_to_string timeout +:+ "ms exceeded").

(** [promiseTimeout(timeout, promise)] *)
Definition promiseTimeout {T} (timeout : Z) (promise : Promise.promise T) : Promise.promise T :=
  Promise.race [promise; rejected_after timeout (TimeoutExceeded timeout)].

(** ** The command handlers: observable effects *)

(** Modelled from the spec: the event the external source delivers, of
    shape [{orderId, contentReferenceText, ...}]; the handler itself
    treats it as an opaque value. *)
Record event : Type := Event {
  orderId : Z;
  contentReferenceText : string
}.

(** The statement [publishRaw] sends: [{object: statementBodyId}]. *)
Record statement : Type := Statement { object : string }.

(** Values handed to [console.log] / [console.error]. *)
Inductive jsValue : Type :=
| VUndefined
| VString (s : string)
| VError (e : jsError)
| VEvent (ev : event)
| VResponse (body : string).

(** The functions of the module that can be registered as callbacks. *)
Inductive callback : Type :=
| OrderPlacedHandler.

Inductive effect : Type :=
| ConsoleLog (args : list jsValue)
| ConsoleError (args : list jsValue)
| ProcessExit (code : Z)
| HttpPublish (peerUrl namespace : string) (body : statement)
| NodeStart
| NodeOpenConnection (remotePeerInfo : string)
| NewWeb3
| Web3SetProvider (rpc : string)
| NewSimpleWrite (arg : Z)
| SimpleWriteSetProvider
| SimpleWriteWrite
| Web3IsConnected
| EventWatch (handler : callback).

Definition is_publish (e : effect) : bool :=
  match e with HttpPublish _ _ _ => true | _ => false end.

Definition is_exit (e : effect) : bool :=
  match e with ProcessExit _ => true | _ => false end.

Definition is_watch (e : effect) : bool :=
  match e with EventWatch _ => true | _ => false end.

Definition is_connectivity_check (e : effect) : bool :=
  match e with Web3IsConnected => true | _ => false end.

(** What the node found by [bootstrap] exposes to the handler. *)
Record node : Type := Node { directory : option string }.
Record remote : Type := Remote { remotePeerInfo : string }.

(** What the collaborators do in one run of the process: how each promise
    they return settles, and what each synchronous call does. *)
Record world : Type := World {
  (** [bootstrap(opts)] *)
  bootstrap_settles : promise (node * option remote);
  (** [node.start()] *)
  start_settles : promise unit;
  (** [node.openConnection(..)] *)
  openConnection_settles : promise unit;
  (** [new Web3()], [web3.setProvider(..)], [new SimpleWrite(10000)]:
      [Some e] when the call throws [e] *)
  new_Web3_throws : option jsError;
  setProvider_throws : option jsError;
  new_SimpleWrite_throws : option jsError;
  (** [web3.isConnected()] *)
  isConnected_returns : bool;
  (** how the promise of the publish request number [n] settles *)
  endpoint_settles : nat -> promise string
}.

(** ** Running handler code

    A computation extends the trace of effects performed so far and ends
    normally, by an exception (for asynchronous code: a rejection), by
    [process.exit], or never (it waits on a promise that stays pending). *)

Inductive outcome (A : Type) : Type :=
| Normal (a : A)
| Abrupt (e : jsError)
| Exited (code : Z)
| Pending.
Arguments Normal {A} a.
Arguments Abrupt {A} e.
Arguments Exited {A} code.
Arguments Pending {A}.

Record exec (A : Type) : Type := Exec {
  run : list effect -> list effect * outcome A
}.
Arguments Exec {A} run.
Arguments run {A} e tr.

Module Exec.

Definition ret {A} (a : A) : exec A := Exec (fun tr => (tr, Normal a)).

Definition bind {A B} (m : exec A) (k : A -> exec B) : exec B :=
  Exec (fun tr =>
    match run m tr with
    | (tr', Normal a) => run (k a) tr'
    | (tr', Abrupt e) => (tr', Abrupt e)
    | (tr', Exited c) => (tr', Exited c)
    | (tr', Pending) => (tr', Pending)
    end).

Definition emit (e : effect) : exec unit :=
  Exec (fun tr => (tr ++ [e], Normal tt)).

Definition throw {A} (e : jsError) : exec A :=
  Exec (fun tr => (tr, Abrupt e)).

(** [process.exit(code)] does not return. *)
Definition process_exit {A} (code : Z) : exec A :=
  Exec (fun tr => (tr ++ [ProcessExit code], Exited code)).

(** Continue when [p] settles. *)
Definition await {A} (p : promise A) : exec A :=
  Exec (fun tr =>
    match p with
    | Some (_, Fulfilled v) => (tr, Normal v)
    | Some (_, Rejected e) => (tr, Abrupt e)
    | None => (tr, Pending)
    end).

(** [try { m } catch (err) { h err }], and [p.catch(h)] *)
Definition catch {A} (m : exec A) (h : jsError -> exec A) : exec A :=
  Exec (fun tr =>
    match run m tr with
    | (tr', Abrupt e) => run (h e) tr'
    | r => r
    end).

(** [p.then(onFulfilled, onRejected)]: [onRejected] does not see what
    [onFulfilled] throws. *)
Definition then2 {A B} (m : exec A) (onFulfilled : A -> exec B)
    (onRejected : jsError -> exec B) : exec B :=
  Exec (fun tr =>
    match run m tr with
    | (tr', Normal a) => run (onFulfilled a) tr'
    | (tr', Abrupt e) => run (onRejected e) tr'
    | (tr', Exited c) => (tr', Exited c)
    | (tr', Pending) => (tr', Pending)
    end).

(** The number of publish requests sent so far. *)
Definition requests_sent : exec nat :=
  Exec (fun tr => (tr, Normal (length (filter (fun e => is_publish e = true) tr)))).

(** A call into a collaborator that may throw. *)
Definition external (e : effect) (throws : option jsError) : exec unit :=
  bind (emit e) (fun _ =>
    match throws with
    | Some err => throw err
    | None => ret tt
    end).

(** Evaluating the identifier [x] where [scope] lists the bindings in
    scope. *)
Definition ident (scope : list string) (x : string) : exec unit :=
  if existsb (String.eqb x) scope then ret tt else throw (ReferenceError x).

Definition console_log (args : list jsValue) : exec unit := emit (ConsoleLog args).
Definition console_error (args : list jsValue) : exec unit := emit (ConsoleError args).

End Exec.

#[export] Instance exec_ret : MRet exec := @Exec.ret.
#[export] Instance exec_bind : MBind exec := fun A B k m => Exec.bind m k.

Import Exec.

(** The whole run of a handler started on an empty trace. *)
Definition trace_of {A} (m : exec A) : list effect := fst (run m []).
Definition outcome_of {A} (m : exec A) : outcome A := snd (run m []).

(** ** [api/RestClient] *)

Module RestClient.

Record client : Type := Client { clientPeerUrl : string }.

(** Modelled from the spec: [api/RestClient] is not among the sources.
    A publish sends exactly one outbound request per call; it neither
    retries nor caches.  The request is wrapped in Bounded
    ([promiseTimeout]) with the timeout the caller supplies and then
    fails with [TimeoutExceeded] when the timer fires first.  The
    endpoint has no bounded-latency guarantee: with no timeout supplied
    the call settles as the endpoint answers that request. *)
Definition publish_bounded (timeout : option Z) (w : world) (c : client)
    (namespace : string) (stmt : statement) : exec string :=
  n ← requests_sent;
  emit (HttpPublish (clientPeerUrl c) namespace stmt);;
  await (match timeout with
         | Some ms => promiseTimeout ms (endpoint_settles w n)
         | None => endpoint_settles w n
         end).

(** [client.publish(namespace, statement)]: the call as the sources make
    it, with the namespace and the statement and no timeout. *)
Definition publish (w : world) (c : client) (namespace : string)
    (stmt : statement) : exec string :=
  publish_bounded None w c namespace stmt.

End RestClient.

(** ** The [publishRaw] command *)

Module PublishRaw.

Record opts : Type := Opts {
  namespace : string;
  peerUrl : string;
  statementBodyId : string
}.

(** [handler(opts)], over any client: [publish] is the [publish] method
    of the client that [new RestClient({peerUrl})] builds. *)
Definition handler_on
    (publish : RestClient.client -> string -> statement -> exec string)
    (o : opts) : exec unit :=
  let client := RestClient.Client (peerUrl o) in
  then2 (publish client (namespace o) (Statement (statementBodyId o)))
        (fun response => console_log [VResponse response])
        (fun err => console_error [VString (message err)]).

Definition handler (w : world) (o : opts) : exec unit :=
  handler_on (RestClient.publish w) o.

End PublishRaw.

(** ** The [oracle] command *)

Module Oracle.

Record opts : Type := Opts {
  dir : option string;
  remotePeer : option string;
  identityPath : string;
  rpc : string
}.

(** [orderPlacedHandler(err, event)]; [err] is [None] for a falsy first
    argument. *)
Definition orderPlacedHandler (err : option jsError) (ev : event) : exec unit :=
  match err with
  | Some e => console_error [VError e]
  | None => console_log [VEvent ev]
  end.

(** The bindings in scope: of the module (with the globals it uses), of
    [handler], of the callback given to [bootstrap(..).then], and of the
    callback given to [init.then]. *)
Definition module_scope : list string :=
  [ "os"; "bootstrap"; "Web3"; "SimpleWrite"; "orderPlacedHandler";
    "module"; "require"; "console"; "process" ]%string.
Definition handler_scope : list string :=
  [ "opts"; "remotePeer"; "rpc" ]%string ++ module_scope.
Definition callback_scope : list string :=
  [ "node"; "remote"; "init" ]%string ++ handler_scope.
Definition block_scope : list string :=
  [ "web3"; "simpleWrite"; "we" ]%string ++ callback_scope.

Definition optional_string (s : option string) : jsValue :=
  match s with
  | Some x => VString x
  | None => VUndefined
  end.

(** The callback given to [init.then]. *)
Definition connected_block (w : world) (o : opts) : exec unit :=
  let sc := block_scope in
  (* const web3 = new Web3() *)
  ident sc "Web3";; external NewWeb3 (new_Web3_throws w);;
  (* web3.setProvider(new web3.providers.HttpProvider(rpc)) *)
  ident sc "web3";; ident sc "web3";; ident sc "rpc";;
  external (Web3SetProvider (rpc o)) (setProvider_throws w);;
  (* const simpleWrite = new SimpleWrite(10000) *)
  ident sc "SimpleWrite";;
  external (NewSimpleWrite 10000) (new_SimpleWrite_throws w);;
  (* simplewrite.setProvider(web3.currentProvider) *)
  ident sc "simplewrite";; ident sc "web3";; emit SimpleWriteSetProvider;;
  (* const we = s.Write() *)
  ident sc "s";; emit SimpleWriteWrite;;
  (* if (!web3.isConnected()) *)
  ident sc "web3";; emit Web3IsConnected;;
  if negb (isConnected_returns w)
  then
    ident sc "console";; ident sc "rpc";;
    console_error [VString "Unable to connect to ethereum RPC:"; VString (rpc o)];;
    ident sc "process";;
    process_exit (-1)
  else
    ident sc "console";; ident sc "rpc";;
    console_log [VString "Connected to ethereum RPC:"; VString (rpc o)];;
    ident sc "we";; ident sc "orderPlacedHandler";;
    emit (EventWatch OrderPlacedHandler).

(** [node.start()]: the call is made now, the promise settles later. *)
Definition node_start (w : world) : exec (promise unit) :=
  emit NodeStart;; mret (start_settles w).

Definition node_openConnection (w : world) (r : remote) : exec unit :=
  emit (NodeOpenConnection (remotePeerInfo r));;
  await (openConnection_settles w).

Definition handler (w : world) (o : opts) : exec unit :=
  nr ← catch (await (bootstrap_settles w))
             (fun err =>
                console_error
                  [VString ("Error setting up aleph node: " +:+ message err)];;
                process_exit 1);
  let '(node, remote) := nr in
  (* the synchronous part of the callback *)
  init ← match remote with
         | Some r =>
             started ← node_start w;
             mret (await started;;
                   node_openConnection w r;;
                   console_log [VString "Connected to "; optional_string (remotePeer o)])
         | None =>
             console_log [VString "No remote peer specified, running in detached mode"];;
             started ← node_start w;
             mret (await started)
         end;
  match directory node with
  | None => console_log [VString "No directory specified, running without directory"]
  | Some _ => mret tt
  end;;
  (* what runs once [init] has settled *)
  catch (init;; connected_block w o)
        (fun err => console_log [VError err]).

End Oracle.

(** ** [common/util]: collections

    A [Set] is the list of its elements in insertion order, in which no
    value occurs twice; membership is decided by the equality of the
    element type. *)

(** [flatMap(array, f)]: [[].concat(...array.map(x => f(x)))]; [concat]
    spreads each array [f] returns by one level. *)
Definition flatMap {T U} (array : list T) (f : T -> list U) : list U :=
  List.concat (List.map f array).

Module JsSet.

(** [s.has(elem)] *)
Definition has {T} `{EqDecision T} (s : list T) (elem : T) : bool :=
  bool_decide (elem ∈ s).

(** [s.add(elem)]: a value already present stays where it is. *)
Definition add {T} `{EqDecision T} (s : list T) (elem : T) : list T :=
  if has s elem then s else s ++ [elem].

(** [s.size] *)
Definition size {T} (s : list T) : nat := length s.

End JsSet.

(** [setUnion(...sets)] *)
Definition setUnion {T} `{EqDecision T} (sets : list (list T)) : list T :=
  foldl (fun u s => foldl JsSet.add u s) [] sets.

(** The loop of [setEquals] over [a.values()]. *)
Fixpoint all_members {T} `{EqDecision T} (b : list T) (elems : list T) : bool :=
  match elems with
  | [] => true
  | elem :: rest => if negb (JsSet.has b elem) then false else all_members b rest
  end.

(** [setEquals(a, b)] *)
Definition setEquals {T} `{EqDecision T} (a b : list T) : bool :=
  if negb (JsSet.size a =? JsSet.size b)%nat then false
  else all_members b a.

(** ** [common/util]: printing *)

(** The streams a line can be written to. *)
Inductive writable : Type :=
| Stdout
| Stderr
| OtherStream (id : nat).

#[export] Instance writable_eq_dec : EqDecision writable.
Proof. solve_decision. Defined.

(** What has been written so far: each [write], with its stream, in
    order. *)
Definition writes : Type := list (writable * string).

Definition newline : string := String (ascii_of_nat 10) EmptyString.

(** [writeln(output, destination)]: one [write] of the text and a
    newline. *)
Definition writeln (output : string) (destination : writable) (log : writes) : writes :=
  log ++ [(destination, output +:+ newline)].

(** [println(output)] *)
Definition println (output : string) (log : writes) : writes :=
  writeln output Stdout log.

(** [printlnErr(output)] *)
Definition printlnErr (output : string) (log : writes) : writes :=
  writeln output Stderr log.

(** Everything a stream has received, in one string. *)
Definition content (d : writable) (log : writes) : string :=
  foldr String.append EmptyString
        (List.map snd (List.filter (fun w => bool_decide (fst w = d)) log)).

(** A call of one of the three printing functions. *)
Inductive print_call : Type :=
| Println (output : string)
| PrintlnErr (output : string)
| Writeln (output : string) (destination : writable).

Definition do_print (log : writes) (c : print_call) : writes :=
  match c with
  | Println output => println output log
  | PrintlnErr output => printlnErr output log
  | Writeln output destination => writeln output destination log
  end.

(** The stream a call writes to and the text it is given. *)
Definition call_stream (c : print_call) : writable :=
  match c with
  | Println _ => Stdout
  | PrintlnErr _ => Stderr
  | Writeln _ destination => destination
  end.

Definition call_output (c : print_call) : string :=
  match c with
  | Println output | PrintlnErr output | Writeln output _ => output
  end.

(** The lines of a text in which every line ends with a newline. *)
Fixpoint lines_from (current : string) (s : string) : list string :=
  match s with
  | EmptyString => []
  | String c s' =>
      if Ascii.eqb c (ascii_of_nat 10)
      then current :: lines_from EmptyString s'
      else lines_from (current +:+ String c EmptyString) s'
  end.

Definition lines (s : string) : list string := lines_from EmptyString s.

Fixpoint has_newline (s : string) : bool :=
  match s with
  | EmptyString => false
  | String c s' => Ascii.eqb c (ascii_of_nat 10) || has_newline s'
  end.

(** Lines written one after the other, each followed by a newline. *)
Definition join_lines (outputs : list string) : string :=
  foldr (fun output rest => output +:+ newline +:+ rest) EmptyString outputs.

(** The texts the calls of [calls] give to the stream [d], in order. *)
Definition outputs_to (d : writable) (calls : list print_call) : list string :=
  List.map call_output (List.filter (fun c => bool_decide (call_stream c = d)) calls).

(** ** [common/util]: [consumeStream] *)

(** What a readable stream emits. *)
Inductive stream_event : Type :=
| DataEvent (chunk : list byte)
| EndEvent
| ErrorEvent (err : jsError).

(** The state of the promise executor: the chunks pushed so far and how
    the promise is settled, if it is. *)
Record consumer : Type := Consumer {
  chunks : list (list byte);
  settled : promise string
}.

(** [resolve] and [reject] have no effect on a settled promise. *)
Definition settle {A} (p : promise A) (t : nat) (s : settlement A) : promise A :=
  match p with
  | Some _ => p
  | None => Some (t, s)
  end.

Section ConsumeStream.

(** [buffer.toString('utf-8')], a function of the bytes alone. *)
Variable utf8_decode : list byte -> string.

(** The three listeners, run on an event emitted at the instant [t]. *)
Definition on_event (c : consumer) (tev : nat * stream_event) : consumer :=
  match snd tev with
  | ErrorEvent err => Consumer (chunks c) (settle (settled c) (fst tev) (Rejected err))
  | DataEvent chunk => Consumer (chunks c ++ [chunk]) (settled c)
  | EndEvent =>
      Consumer (chunks c)
               (settle (settled c) (fst tev)
                       (Fulfilled (utf8_decode (List.concat (chunks c)))))
  end.

(** [consumeStream(stream)] for a stream that emits [events], each at its
    instant, in this order. *)
Definition consumeStream (events : list (nat * stream_event)) : promise string :=
  settled (foldl on_event (Consumer [] None) events).

End ConsumeStream.

(** The events of a stream that emits the chunks [datas], each at its
    instant. *)
Definition data_events (datas : list (nat * list byte)) : list (nat * stream_event) :=
  List.map (fun tc => (fst tc, DataEvent (snd tc))) datas.

(** ** [common/util]: [stringifyNestedBuffers] *)

(** Base64 with padding, what [buffer.toString('base64')] writes. *)
Module Base64.

Definition ALPHABET : string :=
  "ABCDEFGHIJKLMNOPQRSTUVWXYZabcdefghijklmnopqrstuvwxyz0123456789+/".

Definition digit_char (d : N) : ascii :=
  nth (N.to_nat d) (list_ascii_of_string ALPHABET) "="%char.

Definition char_digit (c : ascii) : option N :=
  Base58.index_of c (list_ascii_of_string ALPHABET) 0.

(** Three bytes give four characters of six bits; one or two bytes left
    over are padded with ['=']. *)
Fixpoint encode_groups (bs : list N) : list ascii :=
  match bs with
  | [] => []
  | [a] =>
      [ digit_char (a / 4); digit_char (a mod 4 * 16); "="%char; "="%char ]
  | [a; b] =>
      [ digit_char (a / 4); digit_char (a mod 4 * 16 + b / 16);
        digit_char (b mod 16 * 4); "="%char ]
  | a :: b :: c :: rest =>
      digit_char (a / 4) :: digit_char (a mod 4 * 16 + b / 16)
      :: digit_char (b mod 16 * 4 + c / 64) :: digit_char (c mod 64)
      :: encode_groups rest
  end.

Definition encode (buf : list byte) : string :=
  string_of_list_ascii (encode_groups (List.map Byte.to_N buf)).

End Base64.

(** The values [stringifyNestedBuffers] is used on: plain data and
    [Buffer]s, in arrays and objects (an object is the list of its own
    properties, in order). *)
#[local] Unset Elimination Schemes.
Inductive jsData : Type :=
| DNull
| DUndefined
| DBool (b : bool)
| DNumber (n : Z)
| DString (s : string)
| DBuffer (bytes : list byte)
| DArray (items : list jsData)
| DObject (props : list (string * jsData)).
#[local] Set Elimination Schemes.

(** [_.cloneDeepWith(value, customizer)] of lodash: the customizer is
    asked first, for the value and then for every element and property
    value; where it answers [undefined] ([None]) the value is cloned, its
    children in turn. *)
Fixpoint cloneDeepWith (customizer : jsData -> option jsData) (value : jsData) : jsData :=
  match customizer value with
  | Some replaced => replaced
  | None =>
      match value with
      | DArray items => DArray (List.map (cloneDeepWith customizer) items)
      | DObject props =>
          DObject (List.map (fun kv => let '(k, v) := kv in
                                       (k, cloneDeepWith customizer v)) props)
      | other => other
      end
  end.

(** The [replacer] of [stringifyNestedBuffers]. *)
Definition replacer (obj : jsData) : option jsData :=
  match obj with
  | DBuffer bytes => Some (DString (Base64.encode bytes))
  | _ => None
  end.

(** [stringifyNestedBuffers(obj)] *)
Definition stringifyNestedBuffers (obj : jsData) : jsData :=
  cloneDeepWith replacer obj.

(** Whether a [Buffer] occurs in a value. *)
Fixpoint has_buffer (value : jsData) : bool :=
  match value with
  | DBuffer _ => true
  | DArray items => existsb has_buffer items
  | DObject props => existsb (fun kv => has_buffer (snd kv)) props
  | _ => false
  end.

(** The shape of a value: the value with the content of every string and
    of every buffer forgotten (both become the empty string). *)
Fixpoint shape (value : jsData) : jsData :=
  match value with
  | DString _ | DBuffer _ => DString EmptyString
  | DArray items => DArray (List.map shape items)
  | DObject props =>
      DObject (List.map (fun kv => let '(k, v) := kv in (k, shape v)) props)
  | other => other
  end.

(** ** Log classification and concrete inputs *)

(** A logged value that is an error of the kind [kind]. *)
Definition names_error (kind : string) (v : jsValue) : bool :=
  match v with
  | VError e => String.eqb (errName e) kind
  | _ => false
  end.

(** A log entry that reports an error of the kind [kind]. *)
Definition logs_error (kind : string) (e : effect) : bool :=
  match e with
  | ConsoleLog args | ConsoleError args => existsb (names_error kind) args
  | _ => false
  end.

(** The design document's [ConnectionError]. *)
Definition ConnectionError (msg : string) : jsError := mkError "ConnectionError" msg.

Definition empty_multihash_text : string :=
  "QmdfTbBqBPQ7VNxZEYEj14VmRuZBkqFbiwReogJgS1zR1n".

Definition valid_event : event := Event 1 empty_multihash_text.
Definition malformed_event : event := Event 2 "not-a-hash".

Definition publish_opts : PublishRaw.opts :=
  PublishRaw.Opts "scratch.test" "http://localhost:9002" empty_multihash_text.

Definition oracle_opts : Oracle.opts :=
  Oracle.Opts None None "identity" "http://localhost:8545".

(** A peer whose endpoint refuses the first two requests and accepts the
    third; everything else works and the RPC host is reachable. *)
Definition flaky_endpoint_world : world :=
  World (Some (0%nat, Fulfilled (Node None, None))) (Some (1%nat, Fulfilled tt))
        (Some (2%nat, Fulfilled tt)) None None None true
        (fun n => if (n <? 2)%nat
                  then Some (5%nat, Rejected (ConnectionError "connect ECONNREFUSED"))
                  else Some (5%nat, Fulfilled "ok"%string)).


(** The node starts, the ethereum RPC host is not reachable. *)
Definition rpc_down_world : world :=
  World (Some (0%nat, Fulfilled (Node None, None))) (Some (1%nat, Fulfilled tt))
        (Some (2%nat, Fulfilled tt)) None None None false
        (fun _ => None).

(** [bootstrap] fails. *)
Definition bootstrap_fails_world : world :=
  World (Some (0%nat, Rejected (Error "no identity"))) None None None None None true
        (fun _ => None).

(** Operations for [promiseHash]: none fails and one never completes. *)
Definition one_never_completes : gmap string (promise nat) :=
  <["a" := Some (3%nat, Fulfilled 1%nat)]> (<["c" := None]> ∅).



(** * Properties *)

(** ** Positional number systems *)

Section DigitFacts.

Variable base : N.
Hypothesis base_ge_2 : 2 <= base.

Lemma from_digits_snoc ds d :
  Bytes.from_digits base (ds ++ [d]) = Bytes.from_digits base ds * base + d.
Proof. unfold Bytes.from_digits. now rewrite fold_left_app. Qed.

Lemma from_digits_rev ds :
  Bytes.from_digits base (rev ds) = Bytes.value_le base ds.
Proof.
  induction ds as [|d ds IH]; [reflexivity|].
  cbn [rev Bytes.value_le]. rewrite from_digits_snoc, IH. lia.
Qed.

Lemma div_base_lt n k : n < 2 ^ N.succ k -> n / base < 2 ^ k.
Proof.
  intros Hn. rewrite N.pow_succ_r' in Hn.
  apply N.Div0.div_lt_upper_bound. nia.
Qed.

Lemma to_digits_le_value fuel n :
  n < 2 ^ N.of_nat fuel ->
  Bytes.value_le base (Bytes.to_digits_le fuel base n) = n.
Proof.
  revert n. induction fuel as [|fuel IH]; intros n Hn.
  - cbn in *. lia.
  - cbn [Bytes.to_digits_le]. destruct (N.eqb_spec n 0) as [->|Hnz]; [reflexivity|].
    cbn [Bytes.value_le]. rewrite IH.
    + rewrite N.add_comm. symmetry. apply N.div_mod. lia.
    + apply div_base_lt. now rewrite <- Nnat.Nat2N.inj_succ.
Qed.

Lemma to_digits_le_bound fuel n :
  Forall (fun d => d < base) (Bytes.to_digits_le fuel base n).
Proof.
  revert n. induction fuel as [|fuel IH]; intros n; cbn; [constructor|].
  destruct (n =? 0); constructor; [|apply IH].
  apply N.mod_lt. lia.
Qed.

(** The most significant digit produced is not zero. *)
Lemma to_digits_le_last fuel n :
  n < 2 ^ N.of_nat fuel ->
  List.last (Bytes.to_digits_le fuel base n) 1 <> 0.
Proof.
  revert n. induction fuel as [|fuel IH]; intros n Hn; [cbn; lia|].
  cbn [Bytes.to_digits_le]. destruct (N.eqb_spec n 0) as [->|Hnz]; [cbn; lia|].
  assert (Hq : n / base < 2 ^ N.of_nat fuel).
  { apply div_base_lt. now rewrite <- Nnat.Nat2N.inj_succ. }
  specialize (IH _ Hq).
  destruct fuel as [|fuel'].
  - change (2 ^ N.of_nat 0) with 1 in Hq.
    apply N.lt_1_r in Hq. rename Hq into Hz.
    cbn. apply N.div_small_iff in Hz; [|lia].
    rewrite N.mod_small by lia. exact Hnz.
  - cbn [Bytes.to_digits_le] in *.
    destruct (N.eqb_spec (n / base) 0) as [Hz|Hz'].
    + cbn. apply N.div_small_iff in Hz; [|lia].
      rewrite N.mod_small by lia. exact Hnz.
    + exact IH.
Qed.

Lemma size_fuel n : n < 2 ^ N.of_nat (N.to_nat (N.size n)).
Proof. rewrite Nnat.N2Nat.id. apply N.size_gt. Qed.

Lemma to_digits_value n : Bytes.from_digits base (Bytes.to_digits base n) = n.
Proof.
  unfold Bytes.to_digits. rewrite from_digits_rev.
  apply to_digits_le_value, size_fuel.
Qed.

Lemma to_digits_bound n : Forall (fun d => d < base) (Bytes.to_digits base n).
Proof. apply Forall_rev, to_digits_le_bound. Qed.

Lemma to_digits_canonical n : Bytes.canonical (Bytes.to_digits base n).
Proof.
  unfold Bytes.canonical, Bytes.to_digits.
  pose proof (to_digits_le_last _ _ (size_fuel n)) as Hl.
  destruct (Bytes.to_digits_le _ base n) as [|d l] using rev_ind; [discriminate|].
  rewrite rev_app_distr. cbn. rewrite last_last in Hl. congruence.
Qed.

Lemma value_le_nonzero l :
  l <> [] -> List.last l 1 <> 0 -> Bytes.value_le base l <> 0.
Proof.
  induction l as [|d l IH]; intros Hne Hlast; [congruence|].
  cbn [Bytes.value_le]. destruct l as [|d' l'].
  - cbn in *. lia.
  - assert (Bytes.value_le base (d' :: l') <> 0) by (apply IH; [discriminate|exact Hlast]).
    nia.
Qed.

(** A canonical digit string is the one [to_digits_le] finds again. *)
Lemma to_digits_le_of_value l : forall fuel,
  Forall (fun d => d < base) l ->
  List.last l 1 <> 0 ->
  Bytes.value_le base l < 2 ^ N.of_nat fuel ->
  Bytes.to_digits_le fuel base (Bytes.value_le base l) = l.
Proof.
  induction l as [|d l IH]; intros fuel Hb Hlast Hv.
  - destruct fuel; reflexivity.
  - pose proof (value_le_nonzero (d :: l) ltac:(discriminate) Hlast) as Hnz.
    inversion Hb as [|? ? Hd Hb']; subst.
    destruct fuel as [|fuel].
    { change (2 ^ N.of_nat 0) with 1 in Hv. lia. }
    cbn [Bytes.to_digits_le].
    destruct (N.eqb_spec (Bytes.value_le base (d :: l)) 0) as [Hz|_]; [contradiction|].
    cbn [Bytes.value_le] in *.
    assert (Hmod : (d + base * Bytes.value_le base l) mod base = d).
    { replace (d + base * Bytes.value_le base l)
        with (d + Bytes.value_le base l * base) by lia.
      rewrite N.Div0.mod_add. apply N.mod_small, Hd. }
    assert (Hdiv : (d + base * Bytes.value_le base l) / base = Bytes.value_le base l).
    { replace (d + base * Bytes.value_le base l)
        with (d + Bytes.value_le base l * base) by lia.
      rewrite N.div_add by lia.
      rewrite (N.div_small d base Hd). lia. }
    rewrite Hmod, Hdiv. f_equal. apply IH.
    + exact Hb'.
    + destruct l; [cbn; lia | exact Hlast].
    + rewrite <- Hdiv. apply div_base_lt. now rewrite <- Nnat.Nat2N.inj_succ.
Qed.

Lemma to_digits_of_digits ds :
  Forall (fun d => d < base) ds ->
  Bytes.canonical ds ->
  Bytes.to_digits base (Bytes.from_digits base ds) = ds.
Proof.
  intros Hb Hc. unfold Bytes.to_digits.
  rewrite <- (rev_involutive ds) at 1 2. rewrite from_digits_rev.
  rewrite to_digits_le_of_value.
  - apply rev_involutive.
  - apply Forall_rev, Hb.
  - destruct ds as [|d ds']; [cbn; lia|].
    cbn [rev]. rewrite last_last. intros ->. now apply Hc.
  - apply size_fuel.
Qed.

Lemma from_digits_zeros z ds :
  Bytes.from_digits base (repeat 0 z ++ ds) = Bytes.from_digits base ds.
Proof.
  unfold Bytes.from_digits. rewrite fold_left_app. f_equal.
  induction z as [|z IH]; [reflexivity|]. cbn. exact IH.
Qed.

End DigitFacts.

Lemma leading_zeros_split ds :
  ds = repeat 0 (Bytes.leading_zeros ds) ++ skipn (Bytes.leading_zeros ds) ds
  /\ Bytes.canonical (skipn (Bytes.leading_zeros ds) ds).
Proof.
  induction ds as [|d ds [IH1 IH2]].
  - split; [reflexivity|discriminate].
  - destruct d as [|p]; cbn [Bytes.leading_zeros].
    + cbn [repeat skipn app]. split; [now rewrite <- IH1 | exact IH2].
    + split; [reflexivity|]. cbn. unfold Bytes.canonical. cbn. congruence.
Qed.

Lemma leading_zeros_zeros z ds :
  Bytes.canonical ds -> Bytes.leading_zeros (repeat 0 z ++ ds) = (z + Bytes.leading_zeros ds)%nat.
Proof.
  intros Hc. induction z as [|z IH]; [reflexivity|].
  cbn. now rewrite IH.
Qed.

Lemma leading_zeros_canonical ds :
  Bytes.canonical ds -> Bytes.leading_zeros ds = O.
Proof.
  unfold Bytes.canonical. destruct ds as [|[|p] ds]; cbn; congruence.
Qed.

(** Cutting into blocks loses nothing: the fuel of [chunks] suffices. *)
Lemma chunks_concat (n : nat) (l : list N) :
  (0 < n)%nat -> concat (Bytes.chunks n l) = l.
Proof.
  intros Hn. unfold Bytes.chunks.
  assert (Hgen : forall fuel l', (length l' <= fuel)%nat ->
                                 concat (Bytes.chunks_fuel fuel n l') = l').
  { induction fuel as [|fuel IH]; intros l' Hl.
    - destruct l'; [reflexivity|cbn in Hl; lia].
    - cbn [Bytes.chunks_fuel]. destruct l' as [|x l'']; [reflexivity|].
      cbn [concat]. rewrite IH; [apply firstn_skipn|].
      rewrite length_skipn. cbn [length] in *. lia. }
  now apply Hgen.
Qed.

(** ** Base58 *)

Lemma of_N_wrap_to_N b : Bytes.of_N_wrap (Byte.to_N b) = b.
Proof.
  unfold Bytes.of_N_wrap. pose proof (Byte.to_N_bounded b).
  rewrite N.mod_small by lia. now rewrite Byte.of_to_N.
Qed.

Lemma to_N_lt_256 (buf : list byte) :
  Forall (fun d => d < 256) (List.map Byte.to_N buf).
Proof.
  induction buf as [|b buf IH]; constructor; [|exact IH].
  pose proof (Byte.to_N_bounded b). lia.
Qed.

Lemma map_of_N_wrap_to_N (buf : list byte) :
  List.map Bytes.of_N_wrap (List.map Byte.to_N buf) = buf.
Proof.
  induction buf as [|b buf IH]; [reflexivity|].
  cbn [List.map]. now rewrite of_N_wrap_to_N, IH.
Qed.

Lemma char_digit_digit_char d :
  d < Base58.BASE -> Base58.char_digit (Base58.digit_char d) = Some d.
Proof.
  intros Hd.
  assert (Hall : forallb
            (fun n => match Base58.char_digit (Base58.digit_char (N.of_nat n)) with
                      | Some d' => d' =? N.of_nat n
                      | None => false
                      end) (seq 0 58) = true) by (vm_compute; reflexivity).
  rewrite forallb_forall in Hall.
  specialize (Hall (N.to_nat d)). rewrite Nnat.N2Nat.id in Hall.
  destruct (Base58.char_digit (Base58.digit_char d)) as [d'|].
  - f_equal. apply N.eqb_eq, Hall, in_seq. unfold Base58.BASE in Hd. lia.
  - discriminate Hall. apply in_seq. unfold Base58.BASE in Hd. lia.
Qed.

Lemma chars_digits_digit_chars ds :
  Forall (fun d => d < Base58.BASE) ds ->
  Base58.chars_digits (List.map Base58.digit_char ds) = Some ds.
Proof.
  induction 1 as [|d ds Hd _ IH]; [reflexivity|].
  cbn [List.map Base58.chars_digits].
  now rewrite char_digit_digit_char, IH.
Qed.

Lemma Forall_lt_zeros b z ds :
  0 < b -> Forall (fun d => d < b) ds -> Forall (fun d => d < b) (repeat 0 z ++ ds).
Proof.
  intros Hb Hds. apply Forall_app. split; [|exact Hds].
  induction z; constructor; auto.
Qed.

(** Decoding what [encode] wrote gives the bytes back. *)
Lemma base58_decode_encode (buf : list byte) :
  Base58.decode (Base58.encode buf) = Returns buf.
Proof.
  unfold Base58.decode, Base58.encode.
  rewrite list_ascii_of_string_of_list_ascii.
  set (ns := List.map Byte.to_N buf).
  destruct (leading_zeros_split ns) as [Hsplit Hcanon].
  set (z := Bytes.leading_zeros ns) in *.
  set (rest := skipn z ns) in *.
  set (digits := Bytes.to_digits Base58.BASE (Bytes.from_digits 256 ns)).
  assert (Hrest : Forall (fun d => d < 256) rest).
  { pose proof (to_N_lt_256 buf) as Hall. fold ns in Hall.
    rewrite Hsplit in Hall. now apply Forall_app in Hall. }
  replace (repeat "1"%char z) with (List.map Base58.digit_char (repeat 0 z))
    by apply map_repeat.
  rewrite <- List.map_app, chars_digits_digit_chars.
  2:{ apply Forall_lt_zeros; [reflexivity|]. apply to_digits_bound. discriminate. }
  rewrite leading_zeros_zeros by (apply to_digits_canonical; discriminate).
  rewrite (leading_zeros_canonical digits) by (apply to_digits_canonical; discriminate).
  rewrite Nat.add_0_r, from_digits_zeros.
  unfold digits. rewrite to_digits_value by discriminate.
  rewrite Hsplit at 1. rewrite from_digits_zeros.
  rewrite to_digits_of_digits by (discriminate || assumption).
  f_equal. transitivity (List.map Bytes.of_N_wrap ns); [|apply map_of_N_wrap_to_N].
  rewrite Hsplit at 1. rewrite List.map_app, map_repeat. reflexivity.
Qed.

(** ** Multihash *)

Lemma sha256_length (buf : list byte) : length (SHA256.sha256 buf) = 32%nat.
Proof. reflexivity. Qed.

(** The digest of ["abc"] is the one of FIPS 180-4, appendix B.1. *)
Example sha256_abc :
  SHA256.sha256 [x61; x62; x63]
  = [ xba; x78; x16; xbf; x8f; x01; xcf; xea; x41; x41; x40; xde; x5d; xae; x22; x23;
      xb0; x03; x61; xa3; x96; x17; x7a; x9c; xb4; x10; xff; x61; xf2; x00; x15; xad ].
Proof. vm_compute. reflexivity. Qed.

(** A message of 56 bytes takes two blocks. *)
Example sha256_two_blocks :
  SHA256.sha256 (list_byte_of_string
                   "abcdbcdecdefdefgefghfghighijhijkijkljklmklmnlmnomnopnopq")
  = [ x24; x8d; x6a; x61; xd2; x06; x38; xb8; xe5; xc0; x26; x93; x0c; x3e; x60; x39;
      xa3; x3c; xe4; x59; x64; xff; x21; x67; xf6; xec; xed; xd4; x19; xdb; x06; xc1 ].
Proof. vm_compute. reflexivity. Qed.

Example b58MultihashForBuffer_empty :
  b58MultihashForBuffer [] = Returns empty_multihash_text.
Proof. vm_compute. reflexivity. Qed.

Lemma encode_sha2_256 (digest : list byte) :
  length digest = 32%nat ->
  Multihash.encode digest "sha2-256" = Returns (x12 :: x20 :: digest).
Proof.
  intros Hlen. unfold Multihash.encode. cbn [Multihash.coerceCode bind_result].
  change (Multihash.coerceCode "sha2-256") with (@Returns jsError N 0x12).
  cbn [bind_result]. rewrite Hlen. reflexivity.
Qed.

Lemma validate_sha2_256 (digest : list byte) :
  length digest = 32%nat ->
  Multihash.validate (x12 :: x20 :: digest) = Returns tt.
Proof.
  intros Hlen. unfold Multihash.validate. cbn [length]. rewrite Hlen. reflexivity.
Qed.

Lemma fromB58String_toB58String (mh : list byte) :
  Multihash.fromB58String (Multihash.toB58String mh) = Returns mh.
Proof. apply base58_decode_encode. Qed.

Lemma b58MultihashForBuffer_returns (buf : list byte) :
  b58MultihashForBuffer buf
  = Returns (Multihash.toB58String (x12 :: x20 :: SHA256.sha256 buf)).
Proof.
  unfold b58MultihashForBuffer.
  now rewrite encode_sha2_256 by apply sha256_length.
Qed.

(** C3. Hashing a byte sequence and parsing the base58 text obtained gives
    the same content reference back: [digestOf b] returns a reference
    [r], [parse (textEncoding r)] returns [r], the text is the one
    [b58MultihashForBuffer b] returns, and [isValid] accepts it. *)
Theorem digestOf_parse_roundtrip (b : list byte) :
  exists r,
    MultihashCodec.digestOf b = Returns r
    /\ b58MultihashForBuffer b = Returns (MultihashCodec.textEncoding r)
    /\ MultihashCodec.parse (MultihashCodec.textEncoding r) = Returns r
    /\ MultihashCodec.isValid (MultihashCodec.textEncoding r) = true
    /\ isB58Multihash (MultihashCodec.textEncoding r) = true.
Proof.
  pose proof (sha256_length b) as Hlen.
  eexists. unfold MultihashCodec.digestOf.
  change (Multihash.coerceCode "sha2-256") with (@Returns jsError N 0x12).
  rewrite b58MultihashForBuffer_returns. cbn [bind_result].
  split; [reflexivity|]. cbn [MultihashCodec.textEncoding].
  split; [reflexivity|].
  assert (Hvalid : isB58Multihash
            (Multihash.toB58String (x12 :: x20 :: SHA256.sha256 b)) = true).
  { unfold isB58Multihash. rewrite fromB58String_toB58String. cbn [bind_result].
    now rewrite validate_sha2_256. }
  split; [|split; exact Hvalid].
  unfold MultihashCodec.parse, Multihash.decode.
  rewrite fromB58String_toB58String. cbn [bind_result].
  rewrite validate_sha2_256 by exact Hlen. reflexivity.
Qed.

Lemma to_N_of_N_wrap d : d < 256 -> Byte.to_N (Bytes.of_N_wrap d) = d.
Proof.
  intros Hd. unfold Bytes.of_N_wrap. rewrite N.mod_small by exact Hd.
  destruct (Byte.of_N d) as [b|] eqn:Hb.
  - now apply Byte.to_of_N.
  - apply Byte.of_N_None_iff in Hb. lia.
Qed.

(** What [validate] accepts. *)
Lemma validate_returns (mh : list byte) :
  Multihash.validate mh = Returns tt <->
  exists tag len digest,
    mh = tag :: len :: digest
    /\ (1 <= length digest <= 127)%nat
    /\ Multihash.isValidCode (Byte.to_N tag) = true
    /\ N.of_nat (length digest) = Byte.to_N len.
Proof.
  unfold Multihash.validate. split.
  - destruct (Nat.ltb_spec (length mh) 3) as [|Hge]; [discriminate|].
    destruct (Nat.ltb_spec 129 (length mh)) as [|Hle]; [discriminate|].
    destruct mh as [|tag [|len digest]]; [discriminate..|].
    destruct (Multihash.isValidCode (Byte.to_N tag)) eqn:Hcode; [|discriminate].
    destruct (N.eqb_spec (N.of_nat (length digest)) (Byte.to_N len)) as [Hlen|];
      [|discriminate].
    intros _. exists tag, len, digest. cbn [length] in *.
    split; [reflexivity|]. split; [lia|]. split; [exact Hcode|exact Hlen].
  - intros (tag & len & digest & -> & Hrange & Hcode & Hlen).
    cbn [length].
    destruct (Nat.ltb_spec (S (S (length digest))) 3); [lia|].
    destruct (Nat.ltb_spec 129 (S (S (length digest)))); [lia|].
    rewrite Hcode, Hlen, N.eqb_refl. reflexivity.
Qed.


Lemma isB58Multihash_true (str : string) :
  isB58Multihash str = true <->
  exists h, Multihash.fromB58String str = Returns h
            /\ Multihash.validate h = Returns tt.
Proof.
  unfold isB58Multihash. split.
  - destruct (Multihash.fromB58String str) as [h|e]; cbn [bind_result]; [|discriminate].
    destruct (Multihash.validate h) as [[]|e] eqn:Hv; cbn [bind_result]; [|discriminate].
    intros _. now exists h.
  - intros (h & -> & Hv). cbn [bind_result]. now rewrite Hv.
Qed.

Lemma isB58Multihash_toB58String (mh : list byte) :
  isB58Multihash (Multihash.toB58String mh) = true <->
  Multihash.validate mh = Returns tt.
Proof.
  rewrite isB58Multihash_true. split.
  - intros (h & Hh & Hv). rewrite fromB58String_toB58String in Hh.
    now injection Hh as ->.
  - intros Hv. exists mh. split; [apply fromB58String_toB58String|exact Hv].
Qed.








(** The base58 text of a valid multihash with its last character cut
    off. *)
Example isB58Multihash_text_cut_short :
  isB58Multihash "QmdfTbBqBPQ7VNxZEYEj14VmRuZBkqFbiwReogJgS1zR1n" = true
  /\ isB58Multihash "QmdfTbBqBPQ7VNxZEYEj14VmRuZBkqFbiwReogJgS1zR1" = false.
Proof. split; vm_compute; reflexivity. Qed.


(** ** [promiseTimeout] *)









(** ** [Promise.race] and [Promise.all] *)

Section PromiseFacts.

Context {A : Type}.
Implicit Types (p q : promise A) (ps : list (promise A)).

Lemma earliest_None ps : earliest ps = None <-> Forall (fun p => p = None) ps.
Proof.
  induction ps as [|p ps IH]; cbn [earliest]; [split; [constructor|reflexivity]|].
  destruct p as [[t s]|].
  - split.
    + destruct (earliest ps) as [[t' s']|]; [|discriminate].
      destruct (t <=? t')%nat; discriminate.
    + intros H. inversion H; discriminate.
  - rewrite IH. split; [now constructor|]. intros H. now inversion H.
Qed.

(** The promise [earliest] picks is one of the list, and none settles
    before it. *)
Lemma earliest_Some ps t s :
  earliest ps = Some (t, s) ->
  Some (t, s) ∈ ps /\ forall t' s', Some (t', s') ∈ ps -> (t <= t')%nat.
Proof.
  revert t s. induction ps as [|p ps IH]; intros t s; cbn [earliest]; [discriminate|].
  destruct p as [[t0 s0]|].
  - destruct (earliest ps) as [[t1 s1]|] eqn:He.
    + destruct (IH _ _ eq_refl) as [Hin Hmin].
      destruct (Nat.leb_spec t0 t1) as [Hle|Hlt]; intros [= <- <-].
      * split; [left|]. intros t' s' [[= -> ->]|Hin']%elem_of_cons; [lia|].
        specialize (Hmin _ _ Hin'). lia.
      * split; [now right|]. intros t' s' [[= -> ->]|Hin']%elem_of_cons; [lia|].
        now apply (Hmin _ s').
    + intros [= <- <-]. split; [left|].
      intros t' s' [[= -> ->]|Hin']%elem_of_cons; [lia|].
      apply earliest_None in He. rewrite Forall_forall in He.
      now specialize (He _ Hin').
  - intros He. destruct (IH _ _ He) as [Hin Hmin]. split; [now right|].
    intros t' s' [[=]|Hin']%elem_of_cons. now apply (Hmin _ s').
Qed.


(** The aggregate is fulfilled when the last promise is, not before. *)
Lemma fulfilled_values_time ps t vs :
  fulfilled_values ps = Some (t, vs) ->
  (forall t' s', Some (t', s') ∈ ps -> (t' <= t)%nat)
  /\ (ps = [] \/ exists v, Some (t, Fulfilled v) ∈ ps).
Proof.
  revert t vs. induction ps as [|p ps IH]; intros t vs; cbn [fulfilled_values].
  - intros [= <- <-]. split; [|now left]. intros t' s' Hin. inversion Hin.
  - destruct p as [[t0 [v|e]]|]; [|discriminate..].
    destruct (fulfilled_values ps) as [[t1 vs1]|] eqn:Hf; [|discriminate].
    intros [= <- <-]. destruct (IH _ _ eq_refl) as [Hle Hatt]. split.
    + intros t' s' [[= -> ->]|Hin]%elem_of_cons; [lia|].
      specialize (Hle _ _ Hin). lia.
    + right. destruct (Nat.max_spec t0 t1) as [[Hlt ->]|[Hge ->]].
      * destruct Hatt as [->|[v' Hv']].
        -- cbn in Hf. injection Hf as <- _. lia.
        -- exists v'. now right.
      * exists v. left.
Qed.



(** As soon as one promise is rejected, [Promise.all] is, with the
    reason of the first rejection, at its instant. *)
Lemma all_rejected ps t0 e0 :
  Some (t0, Rejected e0) ∈ ps ->
  exists t e,
    Promise.all ps = Some (t, Rejected e)
    /\ Some (t, Rejected e) ∈ ps
    /\ forall t' e', Some (t', Rejected e') ∈ ps -> (t <= t')%nat.
Proof.
  intros Hin. unfold Promise.all.
  set (rs := filter (fun p => is_rejected p = true) ps).
  assert (Hin' : Some (t0, Rejected e0) ∈ rs).
  { apply list_elem_of_filter. split; [reflexivity|exact Hin]. }
  destruct (earliest rs) as [[t s]|] eqn:He.
  - destruct (earliest_Some _ _ _ He) as [Hrs Hmin].
    apply list_elem_of_filter in Hrs as [Hrej Hps].
    destruct s as [v|e]; [discriminate|].
    exists t, e. split; [reflexivity|]. split; [exact Hps|].
    intros t' e' Hin''. apply (Hmin t' (Rejected e')).
    apply list_elem_of_filter. split; [reflexivity|exact Hin''].
  - apply earliest_None in He. rewrite Forall_forall in He.
    now specialize (He _ Hin').
Qed.

End PromiseFacts.

(** ** [promiseHash] *)

Section PromiseHashFacts.

Context {A : Type}.
Implicit Types (hash : gmap string (promise A)) (keys : list string).





(** [keys.map(k => hash[k])] lists the values in the order of the keys. *)
Lemma vals_of_keys hash :
  (fun k => hash !!! k) <$> (map_to_list hash).*1 = (map_to_list hash).*2.
Proof.
  assert (Hall : forall kp, kp ∈ map_to_list hash -> hash !! kp.1 = Some kp.2).
  { intros [k p] Hin. now apply elem_of_map_to_list. }
  induction (map_to_list hash) as [|[k p] l IH]; [reflexivity|].
  cbn [fmap list_fmap fst snd]. f_equal.
  - apply lookup_total_correct. apply (Hall (k, p)). left.
  - apply IH. intros kp Hin. apply Hall. now right.
Qed.




End PromiseHashFacts.



(** ** The event handler of the [oracle] command *)

Lemma orderPlacedHandler_run (err : option jsError) (ev : event) (tr : list effect) :
  run (Oracle.orderPlacedHandler err ev) tr
  = (tr ++ [match err with
            | Some e => ConsoleError [VError e]
            | None => ConsoleLog [VEvent ev]
            end], Normal tt).
Proof. destruct err; reflexivity. Qed.

(** C1, as stated, fails: for an event whose [contentReferenceText] is a
    valid base58 multihash the handler makes no publish call, not one. *)
Lemma orderPlacedHandler_publishes_once_counterexample :
  isB58Multihash (contentReferenceText valid_event) = true
  /\ length (filter (fun e => is_publish e = true)
                    (trace_of (Oracle.orderPlacedHandler None valid_event))) <> 1%nat.
Proof. split; [vm_compute; reflexivity | vm_compute; discriminate]. Qed.

(** C1, amended. For every incoming event, valid base58 multihash or not,
    the handler of the watcher makes no publish call: it logs the event to
    the standard output (the error to the standard error, when it is given
    one) and returns normally. *)
Theorem orderPlacedHandler_never_publishes (err : option jsError) (ev : event) :
  filter (fun e => is_publish e = true) (trace_of (Oracle.orderPlacedHandler err ev)) = []
  /\ trace_of (Oracle.orderPlacedHandler None ev) = [ConsoleLog [VEvent ev]]
  /\ (forall e, trace_of (Oracle.orderPlacedHandler (Some e) ev) = [ConsoleError [VError e]])
  /\ outcome_of (Oracle.orderPlacedHandler err ev) = Normal tt.
Proof.
  unfold trace_of, outcome_of. rewrite !orderPlacedHandler_run.
  repeat split. now destruct err.
Qed.

(** C2, as stated, fails: for the event whose [contentReferenceText] is
    ["not-a-hash"], which is not a valid reference, the only log entry is the
    event itself, as for any other event; nothing reports an
    [InvalidReference]. *)
Lemma orderPlacedHandler_InvalidReference_counterexample :
  isB58Multihash (contentReferenceText malformed_event) = false
  /\ trace_of (Oracle.orderPlacedHandler None malformed_event)
     = [ConsoleLog [VEvent malformed_event]]
  /\ existsb (logs_error "InvalidReference")
             (trace_of (Oracle.orderPlacedHandler None malformed_event)) = false.
Proof. repeat split; vm_compute; reflexivity. Qed.

(** C2, amended. For every incoming event, whatever its
    [contentReferenceText] (the handler does not validate it), no network
    call is made, the event is logged as it is, without an
    [InvalidReference] entry, nothing else happens (no exit, no change of
    the subscription) and the handler returns normally: a malformed event
    does not crash the watcher. *)
Theorem orderPlacedHandler_logs_and_returns (ev : event) (tr : list effect) :
  run (Oracle.orderPlacedHandler None ev) tr = (tr ++ [ConsoleLog [VEvent ev]], Normal tt)
  /\ filter (fun e => is_publish e = true)
            (trace_of (Oracle.orderPlacedHandler None ev)) = []
  /\ existsb (logs_error "InvalidReference")
             (trace_of (Oracle.orderPlacedHandler None ev)) = false
  /\ filter (fun e => is_exit e = true)
            (trace_of (Oracle.orderPlacedHandler None ev)) = []
  /\ outcome_of (Oracle.orderPlacedHandler None ev) = Normal tt.
Proof. repeat split. Qed.

(** ** The [publishRaw] command *)

(** One request, and then what the endpoint answers to it decides. *)
Lemma publishRaw_run (w : world) (o : PublishRaw.opts) :
  let request := HttpPublish (PublishRaw.peerUrl o) (PublishRaw.namespace o)
                             (Statement (PublishRaw.statementBodyId o)) in
  run (PublishRaw.handler w o) []
  = match endpoint_settles w 0 with
    | Some (_, Fulfilled body) => ([request; ConsoleLog [VResponse body]], Normal tt)
    | Some (_, Rejected e) => ([request; ConsoleError [VString (message e)]], Normal tt)
    | None => ([request], Pending)
    end.
Proof.
  cbn. destruct (endpoint_settles w 0) as [[t [body|e]]|]; reflexivity.
Qed.

(** C7, as stated, fails: against an endpoint that refuses two requests
    with a [ConnectionError] and would accept the third, the handler sends
    one request, not three, and ends by logging the failure. *)
Lemma publishRaw_retry_counterexample :
  (exists msg, endpoint_settles flaky_endpoint_world 0 = Some (5%nat, Rejected (ConnectionError msg))
               /\ endpoint_settles flaky_endpoint_world 1 = Some (5%nat, Rejected (ConnectionError msg)))
  /\ endpoint_settles flaky_endpoint_world 2 = Some (5%nat, Fulfilled "ok")
  /\ length (filter (fun e => is_publish e = true)
                    (trace_of (PublishRaw.handler flaky_endpoint_world publish_opts))) <> 3%nat
  /\ List.last (trace_of (PublishRaw.handler flaky_endpoint_world publish_opts)) (ConsoleLog [])
     = ConsoleError [VString "connect ECONNREFUSED"].
Proof.
  split; [eexists; split; reflexivity|].
  repeat split; vm_compute; discriminate.
Qed.

(** C7, amended. Nothing is retried: the handler sends exactly one request
    whatever the endpoint answers; when the request fails, whatever the
    kind of the error, its message is logged to the standard error and the
    handler ends normally; the process is never terminated. *)
Theorem publishRaw_sends_once_no_retry (w : world) (o : PublishRaw.opts) :
  filter (fun e => is_publish e = true) (trace_of (PublishRaw.handler w o))
  = [HttpPublish (PublishRaw.peerUrl o) (PublishRaw.namespace o)
                 (Statement (PublishRaw.statementBodyId o))]
  /\ filter (fun e => is_exit e = true) (trace_of (PublishRaw.handler w o)) = []
  /\ (forall t e, endpoint_settles w 0 = Some (t, Rejected e) ->
        run (PublishRaw.handler w o) []
        = ([HttpPublish (PublishRaw.peerUrl o) (PublishRaw.namespace o)
                        (Statement (PublishRaw.statementBodyId o));
            ConsoleError [VString (message e)]], Normal tt)).
Proof.
  unfold trace_of. pose proof (publishRaw_run w o) as Hrun. cbn zeta in Hrun.
  rewrite Hrun.
  destruct (endpoint_settles w 0) as [[t [body|e]]|]; repeat split;
    intros; congruence.
Qed.

Lemma publishRaw_sends_once_no_retry_witness :
  run (PublishRaw.handler flaky_endpoint_world publish_opts) []
  = ([HttpPublish "http://localhost:9002" "scratch.test" (Statement empty_multihash_text);
      ConsoleError [VString "connect ECONNREFUSED"]], Normal tt).
Proof.
  destruct (publishRaw_sends_once_no_retry flaky_endpoint_world publish_opts)
    as (_ & _ & Hfail).
  apply (Hfail 5%nat (ConnectionError "connect ECONNREFUSED")). reflexivity.
Defined.





(** ** The [oracle] command *)


(** Over a whole run of the command: no handler is ever registered with
    the event source, the RPC host is never asked whether it is
    connected, and the only exit is the one that follows a failure of
    [bootstrap]. *)
Lemma oracle_handler_effects (w : world) (o : Oracle.opts) :
  filter (fun e => is_watch e = true) (trace_of (Oracle.handler w o)) = []
  /\ filter (fun e => is_connectivity_check e = true) (trace_of (Oracle.handler w o)) = []
  /\ filter (fun e => is_exit e = true) (trace_of (Oracle.handler w o))
     = match bootstrap_settles w with
       | Some (_, Rejected _) => [ProcessExit 1]
       | _ => []
       end.
Proof.
  destruct w as [[[tb [[[d] [r|]]|eb]]|] [[ts [[]|es]]|] [[tc [[]|ec]]|]
                 [e1|] [e2|] [e3|] ic ep];
    repeat split; try destruct d; reflexivity.
Qed.

(** When [bootstrap] fails the command reports it and exits with status 1
    before anything else is attempted. *)
Lemma oracle_bootstrap_failure_exits (w : world) (o : Oracle.opts) t e :
  bootstrap_settles w = Some (t, Rejected e) ->
  run (Oracle.handler w o) []
  = ([ConsoleError [VString ("Error setting up aleph node: " +:+ message e)];
      ProcessExit 1], Exited 1).
Proof. intros Hb. cbn. rewrite Hb. reflexivity. Qed.

(** Once [bootstrap] has succeeded nothing makes the command exit, whatever
    [node.start], [node.openConnection] and the RPC host do. *)
Lemma oracle_no_exit_after_bootstrap (w : world) (o : Oracle.opts) t nr :
  bootstrap_settles w = Some (t, Fulfilled nr) ->
  filter (fun e => is_exit e = true) (trace_of (Oracle.handler w o)) = [].
Proof.
  intros Hb. destruct (oracle_handler_effects w o) as (_ & _ & ->). now rewrite Hb.
Qed.

(** C8: the run of the command when the node starts and the ethereum RPC
    host is not reachable.  The callback stops at the unbound identifier,
    the error is logged, and the process does not exit. *)
Theorem oracle_rpc_down_does_not_exit :
  isConnected_returns rpc_down_world = false
  /\ run (Oracle.handler rpc_down_world oracle_opts) []
     = ([ConsoleLog [VString "No remote peer specified, running in detached mode"];
         NodeStart;
         ConsoleLog [VString "No directory specified, running without directory"];
         NewWeb3; Web3SetProvider "http://localhost:8545"; NewSimpleWrite 10000;
         ConsoleLog [VError (ReferenceError "simplewrite")]], Normal tt)
  /\ filter (fun e => is_exit e = true)
            (trace_of (Oracle.handler rpc_down_world oracle_opts)) = [].
Proof. repeat split. Qed.




(** * More of [common/util] and of the handlers *)

(** ** [flatMap] *)

Lemma flatMap_app {T U} (a b : list T) (f : T -> list U) :
  flatMap (a ++ b) f = flatMap a f ++ flatMap b f.
Proof. unfold flatMap. now rewrite List.map_app, concat_app. Qed.

(** X1. An element is in [flatMap array f] exactly when it is in [f x] for
    some [x] of [array]. *)
Theorem flatMap_elements {T U} (array : list T) (f : T -> list U) (y : U) :
  In y (flatMap array f) <-> exists x, In x array /\ In y (f x).
Proof.
  unfold flatMap. rewrite in_concat. split.
  - intros (l & Hl & Hy). apply in_map_iff in Hl as (x & <- & Hx). now exists x.
  - intros (x & Hx & Hy). exists (f x). split; [now apply in_map|exact Hy].
Qed.

(** X2. Two passes of [flatMap] are one pass with the composed function,
    and [flatMap] goes through the concatenation of arrays; the result is
    as long as the arrays [f] returns, together. *)
Theorem flatMap_compose {T U V} (array : list T) (f : T -> list U) (g : U -> list V) :
  flatMap (flatMap array f) g = flatMap array (fun x => flatMap (f x) g)
  /\ (forall more, flatMap (array ++ more) f = flatMap array f ++ flatMap more f)
  /\ length (flatMap array f) = list_sum (List.map (fun x => length (f x)) array).
Proof.
  split; [|split].
  - induction array as [|x array IH]; [reflexivity|].
    change (flatMap (x :: array) f) with (f x ++ flatMap array f).
    rewrite flatMap_app, IH. reflexivity.
  - intros more. apply flatMap_app.
  - induction array as [|x array IH]; [reflexivity|].
    change (flatMap (x :: array) f) with (f x ++ flatMap array f).
    rewrite length_app, IH. reflexivity.
Qed.

(** X3. With a function that returns one element [flatMap] is [map]; with
    one that returns the element or nothing it is [filter]; the array is
    traversed in order. *)
Theorem flatMap_map_filter {T U} (array : list T) (g : T -> U) (keep : T -> bool) :
  flatMap array (fun x => [g x]) = List.map g array
  /\ flatMap array (fun x => if keep x then [x] else []) = List.filter keep array
  /\ flatMap array (fun _ => @nil U) = [].
Proof.
  repeat split; induction array as [|x array IH]; try reflexivity.
  - change (g x :: flatMap array (fun x => [g x]) = g x :: List.map g array).
    now rewrite IH.
  - change ((if keep x then [x] else [])
            ++ flatMap array (fun x => if keep x then [x] else [])
            = List.filter keep (x :: array)).
    rewrite IH. cbn. now destruct (keep x).
  - exact IH.
Qed.

(** ** [setUnion] and [setEquals] *)

Section SetFacts.

Context {T : Type} `{EqDecision T}.
Implicit Types (s u a b : list T) (sets : list (list T)).

Lemma has_true s x : JsSet.has s x = true <-> x ∈ s.
Proof. unfold JsSet.has. apply bool_decide_eq_true. Qed.

Lemma add_elem s e x : x ∈ JsSet.add s e <-> x ∈ s \/ x = e.
Proof.
  unfold JsSet.add. destruct (JsSet.has s e) eqn:Hhas.
  - apply has_true in Hhas. split; [now left|]. now intros [?| ->].
  - rewrite elem_of_app, list_elem_of_singleton. reflexivity.
Qed.

Lemma add_NoDup s e : NoDup s -> NoDup (JsSet.add s e).
Proof.
  intros Hs. unfold JsSet.add. destruct (JsSet.has s e) eqn:Hhas; [exact Hs|].
  apply NoDup_app. split; [exact Hs|]. split; [|apply NoDup_singleton].
  intros x Hx Hxe. apply list_elem_of_singleton in Hxe as ->.
  apply has_true in Hx. congruence.
Qed.

Lemma add_all_elem s u x : x ∈ foldl JsSet.add u s <-> x ∈ u \/ x ∈ s.
Proof.
  revert u. induction s as [|e s IH]; intros u; cbn [foldl].
  - split; [now left|]. intros [|Hin]; [assumption|inversion Hin].
  - rewrite IH, add_elem, elem_of_cons. tauto.
Qed.

Lemma add_all_NoDup s u : NoDup u -> NoDup (foldl JsSet.add u s).
Proof.
  revert u. induction s as [|e s IH]; intros u Hu; [exact Hu|].
  cbn [foldl]. apply IH, add_NoDup, Hu.
Qed.

Lemma union_from_elem sets u x :
  x ∈ foldl (fun u s => foldl JsSet.add u s) u sets
  <-> x ∈ u \/ exists s, s ∈ sets /\ x ∈ s.
Proof.
  revert u. induction sets as [|s sets IH]; intros u; cbn [foldl].
  - split; [now left|]. intros [|(s & Hs & _)]; [assumption|inversion Hs].
  - rewrite IH, add_all_elem. split.
    + intros [[Hu|Hs]|(s' & Hs' & Hx)]; [now left| |].
      * right. exists s. split; [left|exact Hs].
      * right. exists s'. split; [now right|exact Hx].
    + intros [Hu|(s' & [->|Hs']%elem_of_cons & Hx)].
      * now left; left.
      * now left; right.
      * right. now exists s'.
Qed.

Lemma union_from_NoDup sets u :
  NoDup u -> NoDup (foldl (fun u s => foldl JsSet.add u s) u sets).
Proof.
  revert u. induction sets as [|s sets IH]; intros u Hu; [exact Hu|].
  cbn [foldl]. apply IH, add_all_NoDup, Hu.
Qed.

Lemma setUnion_elem sets x :
  x ∈ setUnion sets <-> exists s, s ∈ sets /\ x ∈ s.
Proof.
  unfold setUnion. rewrite union_from_elem. split.
  - intros [Hnil|Hex]; [inversion Hnil|exact Hex].
  - intros Hex. now right.
Qed.

Lemma setUnion_NoDup sets : NoDup (setUnion sets).
Proof. apply union_from_NoDup. constructor. Qed.

(** X4. The union holds exactly the values of the sets given, each of them
    once; the union of no set, or of empty sets, is empty. *)
Theorem setUnion_members sets :
  (forall x, x ∈ setUnion sets <-> exists s, s ∈ sets /\ x ∈ s)
  /\ NoDup (setUnion sets)
  /\ setUnion (@nil (list T)) = []
  /\ ((forall s, s ∈ sets -> s = []) -> setUnion sets = []).
Proof.
  split; [apply setUnion_elem|]. split; [apply setUnion_NoDup|].
  split; [reflexivity|].
  intros Hempty. destruct (setUnion sets) as [|x u] eqn:Hu; [reflexivity|].
  assert (Hx : x ∈ setUnion sets) by (rewrite Hu; left).
  apply setUnion_elem in Hx as (s & Hs & Hx).
  rewrite (Hempty s Hs) in Hx. inversion Hx.
Qed.

Lemma add_all_self a : NoDup a -> forall u, (forall x, x ∈ u -> x ∉ a) ->
  NoDup u -> foldl JsSet.add u a = u ++ a.
Proof.
  induction a as [|e a IH]; intros Ha u Hdisj Hu; cbn [foldl].
  - now rewrite app_nil_r.
  - apply NoDup_cons in Ha as [He Ha].
    assert (Hadd : JsSet.add u e = u ++ [e]).
    { unfold JsSet.add. destruct (JsSet.has u e) eqn:Hhas; [|reflexivity].
      apply has_true in Hhas. exfalso. apply (Hdisj e Hhas). left. }
    rewrite Hadd, IH.
    + now rewrite <- app_assoc.
    + exact Ha.
    + intros x [Hx|Hx]%elem_of_app Hxa.
      * apply (Hdisj x Hx). now right.
      * apply list_elem_of_singleton in Hx as ->. exact (He Hxa).
    + rewrite <- Hadd. now apply add_NoDup.
Qed.

(** Adding to a larger set that starts with [u]: what is added is what
    would be added to the rest alone, without the values of [u]. *)
Lemma add_all_behind s : forall u w,
  foldl JsSet.add (u ++ filter (fun x => x ∉ u) w) s
  = u ++ filter (fun x => x ∉ u) (foldl JsSet.add w s).
Proof.
  induction s as [|e s IH]; intros u w; cbn [foldl]; [reflexivity|].
  rewrite <- IH. f_equal. unfold JsSet.add, JsSet.has.
  destruct (decide (e ∈ u)) as [Hu|Hu].
  - rewrite bool_decide_eq_true_2 by (apply elem_of_app; now left).
    destruct (bool_decide (e ∈ w)); [reflexivity|].
    rewrite filter_app, filter_cons_False by (intros Hn; now apply Hn).
    rewrite filter_nil. now rewrite app_nil_r.
  - destruct (decide (e ∈ w)) as [Hw|Hw].
    + rewrite (bool_decide_eq_true_2 (e ∈ w)) by exact Hw.
      rewrite bool_decide_eq_true_2; [reflexivity|].
      apply elem_of_app. right. apply list_elem_of_filter. now split.
    + rewrite (bool_decide_eq_false_2 (e ∈ w)) by exact Hw.
      rewrite bool_decide_eq_false_2.
      * rewrite filter_app, filter_cons_True by exact Hu.
        rewrite filter_nil. now rewrite <- app_assoc.
      * intros [Hin|Hin]%elem_of_app; [exact (Hu Hin)|].
        apply list_elem_of_filter in Hin as [_ Hin]. exact (Hw Hin).
Qed.

Lemma union_from_behind sets : forall u,
  foldl (fun u s => foldl JsSet.add u s) u sets
  = u ++ filter (fun x => x ∉ u) (setUnion sets).
Proof.
  unfold setUnion.
  induction sets as [|s sets IH] using rev_ind; intros u.
  - cbn. now rewrite app_nil_r.
  - rewrite !foldl_snoc, IH. apply add_all_behind.
Qed.

(** X5. The union keeps the order of first insertion: the values of the
    first set come first, in its order, followed by the union of the
    other sets without them. *)
Theorem setUnion_insertion_order a sets :
  NoDup a ->
  setUnion (a :: sets) = a ++ filter (fun x => x ∉ a) (setUnion sets).
Proof.
  intros Ha. unfold setUnion at 1. cbn [foldl].
  rewrite (add_all_self a Ha []).
  - cbn [app]. apply union_from_behind.
  - intros x Hx. inversion Hx.
  - constructor.
Qed.

Lemma all_members_true b elems :
  all_members b elems = true <-> forall x, x ∈ elems -> x ∈ b.
Proof.
  induction elems as [|e elems IH]; cbn [all_members].
  - split; [|reflexivity]. intros _ x Hx. inversion Hx.
  - destruct (JsSet.has b e) eqn:Hhas; cbn [negb].
    + apply has_true in Hhas. rewrite IH. split.
      * intros Hall x [->|Hx]%elem_of_cons; [exact Hhas|now apply Hall].
      * intros Hall x Hx. apply Hall. now right.
    + split; [discriminate|]. intros Hall. exfalso.
      assert (e ∈ b) as Hin by (apply Hall; left).
      apply has_true in Hin. congruence.
Qed.

Lemma setEquals_iff a b :
  NoDup a -> NoDup b ->
  (setEquals a b = true <-> forall x, x ∈ a <-> x ∈ b).
Proof.
  intros Ha Hb. unfold setEquals, JsSet.size.
  destruct (Nat.eqb_spec (length a) (length b)) as [Hlen|Hlen]; cbn [negb].
  - rewrite all_members_true. split; [|intros Hsame x; apply Hsame].
    intros Hsub x. split; [apply Hsub|].
    intros Hx. apply list_elem_of_In.
    apply (NoDup_length_incl (l := a) (l' := b)).
    + now apply NoDup_ListNoDup.
    + lia.
    + intros y Hy. apply list_elem_of_In, Hsub, list_elem_of_In, Hy.
    + now apply list_elem_of_In.
  - split; [discriminate|]. intros Hsame. exfalso. apply Hlen.
    apply Nat.le_antisymm; apply NoDup_incl_length;
      try (now apply NoDup_ListNoDup);
      intros y Hy; apply list_elem_of_In, Hsame, list_elem_of_In, Hy.
Qed.

(** X6. On two sets [setEquals] answers [true] exactly when they have the
    same members, whatever the order of insertion; so it answers the same
    with its arguments exchanged, and [true] for a set and itself. *)
Theorem setEquals_same_members a b :
  NoDup a -> NoDup b ->
  (setEquals a b = true <-> forall x, x ∈ a <-> x ∈ b)
  /\ setEquals a b = setEquals b a
  /\ setEquals a a = true.
Proof.
  intros Ha Hb. split; [now apply setEquals_iff|]. split.
  - destruct (setEquals a b) eqn:Hab, (setEquals b a) eqn:Hba; try reflexivity.
    + pose proof (proj1 (setEquals_iff a b Ha Hb) Hab) as Hsame.
      assert (setEquals b a = true) as Habs
        by (apply (setEquals_iff b a Hb Ha); intros x; symmetry; apply Hsame).
      congruence.
    + pose proof (proj1 (setEquals_iff b a Hb Ha) Hba) as Hsame.
      assert (setEquals a b = true) as Habs
        by (apply (setEquals_iff a b Ha Hb); intros x; symmetry; apply Hsame).
      congruence.
  - now apply setEquals_iff.
Qed.

Lemma setUnion_elem_cons s sets x :
  x ∈ setUnion (s :: sets) <-> x ∈ s \/ x ∈ setUnion sets.
Proof.
  rewrite !setUnion_elem. split.
  - intros (s' & [->|Hs']%elem_of_cons & Hx); [now left|]. right. now exists s'.
  - intros [Hx|(s' & Hs' & Hx)].
    + exists s. split; [left|exact Hx].
    + exists s'. split; [now right|exact Hx].
Qed.

Lemma setUnion_elem_nil x : x ∈ setUnion (@nil (list T)) <-> False.
Proof. split; [intros Hx; inversion Hx|tauto]. Qed.

(** X7. Up to [setEquals] the union does not depend on the order of its
    arguments, nor on an argument given twice, nor on how the unions are
    nested. *)
Theorem setUnion_commutes a b c :
  setEquals (setUnion [a; b]) (setUnion [b; a]) = true
  /\ setEquals (setUnion [a; b; c]) (setUnion [c; a; b]) = true
  /\ setEquals (setUnion [a; a; b]) (setUnion [a; b]) = true
  /\ setEquals (setUnion [setUnion [a; b]; c]) (setUnion [a; setUnion [b; c]]) = true.
Proof.
  repeat split;
    (apply setEquals_iff; [apply setUnion_NoDup..|]);
    intros x; rewrite ?setUnion_elem_cons, ?setUnion_elem_nil; tauto.
Qed.

End SetFacts.

Lemma setUnion_insertion_order_witness :
  setUnion [[3; 1; 2]; [2; 5; 3; 4]]%nat = [3; 1; 2; 5; 4]%nat.
Proof.
  rewrite (setUnion_insertion_order [3; 1; 2]%nat [[2; 5; 3; 4]%nat]).
  - reflexivity.
  - apply (bool_decide_unpack _). vm_compute. exact I.
Defined.

Lemma setEquals_same_members_witness :
  setEquals [1; 2; 3]%nat [3; 1; 2]%nat = true.
Proof.
  apply (proj1 (setEquals_same_members [1; 2; 3]%nat [3; 1; 2]%nat
                  ltac:(apply (bool_decide_unpack _); vm_compute; exact I)
                  ltac:(apply (bool_decide_unpack _); vm_compute; exact I))).
  intros x. rewrite !elem_of_cons. tauto.
Defined.

(** ** [writeln], [println] and [printlnErr] *)

Lemma string_append_assoc (a b c : string) : (a +:+ b) +:+ c = a +:+ (b +:+ c).
Proof.
  induction a as [|x a IH]; [reflexivity|].
  change (String x ((a +:+ b) +:+ c) = String x (a +:+ (b +:+ c))).
  f_equal. exact IH.
Qed.

Lemma string_append_nil_r (a : string) : a +:+ EmptyString = a.
Proof.
  induction a as [|x a IH]; [reflexivity|].
  change (String x (a +:+ EmptyString) = String x a).
  f_equal. exact IH.
Qed.

Lemma content_write d log d' text :
  content d (log ++ [(d', text)])
  = if bool_decide (d' = d) then content d log +:+ text else content d log.
Proof.
  unfold content. rewrite List.filter_app. cbn [List.filter fst].
  destruct (bool_decide (d' = d)).
  - rewrite List.map_app, foldr_app. cbn [List.map foldr snd].
    rewrite string_append_nil_r.
    induction (List.map snd _) as [|x l IH]; cbn [foldr]; [reflexivity|].
    now rewrite IH, string_append_assoc.
  - now rewrite app_nil_r.
Qed.

Lemma do_print_write log c :
  do_print log c = log ++ [(call_stream c, call_output c +:+ newline)].
Proof. destruct c; reflexivity. Qed.

Lemma lines_from_line (output : string) : forall current rest,
  has_newline output = false ->
  lines_from current (output +:+ newline +:+ rest)
  = (current +:+ output) :: lines_from EmptyString rest.
Proof.
  induction output as [|c output IH]; intros current rest Hnl.
  - change (EmptyString +:+ newline +:+ rest)
      with (String (ascii_of_nat 10) rest).
    cbn [lines_from]. rewrite Ascii.eqb_refl. now rewrite string_append_nil_r.
  - cbn [has_newline] in Hnl. apply orb_false_iff in Hnl as [Hc Hnl].
    change (String c output +:+ newline +:+ rest)
      with (String c (output +:+ newline +:+ rest)).
    cbn [lines_from]. rewrite Hc, IH by exact Hnl.
    now rewrite string_append_assoc.
Qed.

Lemma lines_join_lines (outputs : list string) :
  Forall (fun o => has_newline o = false) outputs ->
  lines (join_lines outputs) = outputs.
Proof.
  unfold lines. induction 1 as [|o outputs Ho _ IH]; [reflexivity|].
  cbn [join_lines foldr]. rewrite lines_from_line by exact Ho.
  f_equal. exact IH.
Qed.

Lemma content_after_calls (calls : list print_call) : forall (log : writes) (d : writable),
  content d (foldl do_print log calls)
  = content d log +:+ join_lines (outputs_to d calls).
Proof.
  induction calls as [|c calls IH]; intros log d.
  - cbn. now rewrite string_append_nil_r.
  - cbn [foldl]. rewrite IH, do_print_write, content_write.
    unfold outputs_to. cbn [List.filter].
    destruct (bool_decide (call_stream c = d)); [|reflexivity].
    cbn [List.map join_lines foldr]. now rewrite !string_append_assoc.
Qed.

(** X8. After any sequence of calls of [writeln], [println] and
    [printlnErr], a stream holds what it held before followed by the
    texts given for it, in the order of the calls, each with one newline
    after it; [println] writes to the standard output only and
    [printlnErr] to the standard error only. *)
Theorem print_calls_content (calls : list print_call) (log : writes) (d : writable) :
  content d (foldl do_print log calls)
  = content d log +:+ join_lines (outputs_to d calls)
  /\ (forall output, content Stderr (println output log) = content Stderr log)
  /\ (forall output, content Stdout (printlnErr output log) = content Stdout log)
  /\ (forall output, content Stdout (println output log)
                     = content Stdout log +:+ output +:+ newline)
  /\ (forall output, content Stderr (printlnErr output log)
                     = content Stderr log +:+ output +:+ newline).
Proof.
  split; [apply content_after_calls|].
  repeat split; intros output; unfold println, printlnErr, writeln;
    rewrite content_write; reflexivity.
Qed.

(** X9. When no text given contains a newline, the lines of what a stream
    has received since the start are the texts given for it, one line
    each, in the order of the calls. *)
Theorem print_calls_lines (calls : list print_call) (d : writable) :
  Forall (fun c => has_newline (call_output c) = false) calls ->
  lines (content d (foldl do_print [] calls)) = outputs_to d calls.
Proof.
  intros Hnl. rewrite content_after_calls.
  cbn [content List.filter List.map foldr String.append].
  apply lines_join_lines. unfold outputs_to.
  apply List.Forall_forall. intros o Ho.
  apply in_map_iff in Ho as (c & <- & Hc). apply filter_In in Hc as [Hc _].
  rewrite List.Forall_forall in Hnl. now apply Hnl.
Qed.

Lemma print_calls_lines_witness :
  lines (content Stdout
           (foldl do_print [] [Println "one"; PrintlnErr "oops"; Println "two"]))
  = ["one"; "two"]%string.
Proof.
  apply (print_calls_lines [Println "one"; PrintlnErr "oops"; Println "two"] Stdout).
  repeat constructor.
Defined.

(** ** [consumeStream] *)

Section ConsumeStreamFacts.

Variable utf8_decode : list byte -> string.

Lemma consumer_settled_stays events : forall ch x,
  settled (foldl (on_event utf8_decode) (Consumer ch (Some x)) events) = Some x.
Proof.
  induction events as [|[t ev] events IH]; intros ch x; [reflexivity|].
  cbn [foldl]. destruct ev; unfold on_event; cbn [snd fst chunks settled settle]; apply IH.
Qed.

Lemma consumer_data datas : forall ch,
  foldl (on_event utf8_decode) (Consumer ch None) (data_events datas)
  = Consumer (ch ++ List.map snd datas) None.
Proof.
  induction datas as [|[t c] datas IH]; intros ch.
  - cbn. now rewrite app_nil_r.
  - cbn [data_events List.map foldl]. unfold on_event at 2.
    cbn [snd fst chunks settled]. fold (data_events datas).
    rewrite IH, <- app_assoc. reflexivity.
Qed.

(** X10. A stream that emits chunks and then ends gives the promise the
    text of all the bytes received, in order, at the instant of the end;
    what the stream emits after that, an error included, changes nothing;
    and only the bytes count, not how they are cut into chunks. *)
Theorem consumeStream_end datas t rest :
  consumeStream utf8_decode (data_events datas ++ (t, EndEvent) :: rest)
  = Some (t, Fulfilled (utf8_decode (List.concat (List.map snd datas))))
  /\ (forall datas',
        List.concat (List.map snd datas') = List.concat (List.map snd datas) ->
        consumeStream utf8_decode (data_events datas' ++ [(t, EndEvent)])
        = consumeStream utf8_decode (data_events datas ++ (t, EndEvent) :: rest)).
Proof.
  assert (Hend : forall ds r,
            consumeStream utf8_decode (data_events ds ++ (t, EndEvent) :: r)
            = Some (t, Fulfilled (utf8_decode (List.concat (List.map snd ds))))).
  { intros ds r. unfold consumeStream. rewrite foldl_app, consumer_data.
    cbn [foldl app]. unfold on_event at 2. cbn [snd fst chunks settled settle].
    apply consumer_settled_stays. }
  split; [apply Hend|].
  intros datas' Hsame. now rewrite !Hend, Hsame.
Qed.

(** X11. A stream that emits an error before it ends gives a promise
    rejected with that error, at that instant, and the chunks received are
    dropped; a stream that emits chunks only, and neither ends nor fails,
    leaves the promise pending. *)
Theorem consumeStream_error_or_pending datas t err rest :
  consumeStream utf8_decode (data_events datas ++ (t, ErrorEvent err) :: rest)
  = Some (t, Rejected err)
  /\ consumeStream utf8_decode (data_events datas) = None.
Proof.
  unfold consumeStream. split.
  - rewrite foldl_app, consumer_data. cbn [foldl app]. unfold on_event at 2.
    cbn [snd fst chunks settled settle]. apply consumer_settled_stays.
  - now rewrite consumer_data.
Qed.

End ConsumeStreamFacts.

Lemma consumeStream_end_witness :
  consumeStream string_of_list_byte
    (data_events [(1%nat, [x68; x65]); (2%nat, [x6c; x6c; x6f])] ++ [(3%nat, EndEvent)])
  = consumeStream string_of_list_byte
      (data_events [(2%nat, [x68; x65; x6c; x6c; x6f])]
       ++ (3%nat, EndEvent) :: [(4%nat, ErrorEvent (Error "late"))]).
Proof.
  apply (proj2 (consumeStream_end string_of_list_byte
                  [(2%nat, [x68; x65; x6c; x6c; x6f])] 3%nat
                  [(4%nat, ErrorEvent (Error "late"))])).
  reflexivity.
Defined.

(** ** Base64 *)

(** Division and remainder by a constant, as their equations. *)
Ltac euclid a c :=
  let q := fresh "q" in
  let r := fresh "r" in
  pose proof (N.div_mod a c ltac:(discriminate));
  pose proof (N.mod_lt a c ltac:(discriminate));
  set (q := a / c) in *; set (r := a mod c) in *; clearbody q r.

Ltac divmod :=
  repeat match goal with
         | |- context [?a / ?c] => euclid a c
         | |- context [?a mod ?c] => euclid a c
         | H : context [?a / ?c] |- _ => euclid a c
         | H : context [?a mod ?c] |- _ => euclid a c
         end.

Lemma list_ind3 {A} (P : list A -> Prop) :
  P [] -> (forall a, P [a]) -> (forall a b, P [a; b]) ->
  (forall a b c l, P l -> P (a :: b :: c :: l)) ->
  forall l, P l.
Proof.
  intros H0 H1 H2 H3 l.
  enough (P l /\ (forall a, P (a :: l)) /\ (forall a b, P (a :: b :: l))) by tauto.
  induction l as [|x l (IH0 & IH1 & IH2)]; [now auto|].
  split; [apply IH1|]. split; [intros a; apply IH2|]. intros a b. apply H3, IH0.
Qed.

Lemma base64_char_digit d :
  d < 64 -> Base64.char_digit (Base64.digit_char d) = Some d.
Proof.
  intros Hd.
  assert (Hall : forallb
            (fun n => match Base64.char_digit (Base64.digit_char (N.of_nat n)) with
                      | Some d' => d' =? N.of_nat n
                      | None => false
                      end) (seq 0 64) = true) by (vm_compute; reflexivity).
  rewrite forallb_forall in Hall.
  specialize (Hall (N.to_nat d)). rewrite Nnat.N2Nat.id in Hall.
  destruct (Base64.char_digit (Base64.digit_char d)) as [d'|].
  - f_equal. apply N.eqb_eq, Hall, in_seq. lia.
  - discriminate Hall. apply in_seq. lia.
Qed.

Lemma base64_digit_char_inj d1 d2 :
  d1 < 64 -> d2 < 64 -> Base64.digit_char d1 = Base64.digit_char d2 -> d1 = d2.
Proof.
  intros H1 H2 Heq. apply (f_equal Base64.char_digit) in Heq.
  rewrite !base64_char_digit in Heq by assumption. congruence.
Qed.

Lemma base64_digit_char_not_pad d : d < 64 -> Base64.digit_char d <> "="%char.
Proof.
  intros Hd Heq. apply (f_equal Base64.char_digit) in Heq.
  rewrite base64_char_digit in Heq by assumption. discriminate Heq.
Qed.

Lemma base64_groups_length (bs : list N) :
  length (Base64.encode_groups bs) = (4 * ((length bs + 2) / 3))%nat.
Proof.
  revert bs. apply (@list_ind3 N); [reflexivity..|]. intros a b c bs IH.
  cbn [Base64.encode_groups length]. rewrite IH.
  replace (S (S (S (length bs))) + 2)%nat with ((length bs + 2) + 1 * 3)%nat by lia.
  rewrite Nat.div_add by lia. lia.
Qed.

Lemma base64_groups_inj (l1 : list N) : forall l2 : list N,
  Forall (fun d => d < 256) l1 -> Forall (fun d => d < 256) l2 ->
  Base64.encode_groups l1 = Base64.encode_groups l2 -> l1 = l2.
Proof.
  revert l1.
  apply (list_ind3 (fun l1 : list N => forall l2 : list N,
           Forall (fun d => d < 256) l1 -> Forall (fun d => d < 256) l2 ->
           Base64.encode_groups l1 = Base64.encode_groups l2 -> l1 = l2));
    [ | intros a | intros a b | intros a b c l1 IH];
    intros [|a' [|b' [|c' l2]]] Hl1 Hl2 Heq;
    cbn [Base64.encode_groups] in Heq; try discriminate Heq; try reflexivity;
    repeat match goal with
           | H : Forall _ (_ :: _) |- _ => apply Forall_cons in H as [? H]
           end;
    inversion Heq; clear Heq;
    repeat match goal with
           | H : Base64.digit_char ?x = "="%char |- _ =>
               exfalso; apply (base64_digit_char_not_pad x); [divmod; lia|exact H]
           | H : "="%char = Base64.digit_char ?x |- _ =>
               exfalso; apply (base64_digit_char_not_pad x);
               [divmod; lia|symmetry; exact H]
           | H : Base64.digit_char ?x = Base64.digit_char ?y |- _ =>
               apply base64_digit_char_inj in H; [|divmod; lia..]
           end;
    repeat f_equal; try (divmod; lia).
  now apply IH.
Qed.

Lemma string_of_list_ascii_length (l : list ascii) :
  String.length (string_of_list_ascii l) = length l.
Proof. induction l as [|c l IH]; cbn; [reflexivity|now rewrite IH]. Qed.

Lemma base64_encode_inj (b1 b2 : list byte) :
  Base64.encode b1 = Base64.encode b2 -> b1 = b2.
Proof.
  unfold Base64.encode. intros Heq.
  apply (f_equal list_ascii_of_string) in Heq.
  rewrite !list_ascii_of_string_of_list_ascii in Heq.
  apply base64_groups_inj in Heq; [|apply to_N_lt_256..].
  rewrite <- (map_of_N_wrap_to_N b1), <- (map_of_N_wrap_to_N b2). now rewrite Heq.
Qed.

(** ** [stringifyNestedBuffers] *)

Lemma jsData_induction (P : jsData -> Prop) :
  P DNull -> P DUndefined -> (forall b, P (DBool b)) -> (forall n, P (DNumber n)) ->
  (forall s, P (DString s)) -> (forall bytes, P (DBuffer bytes)) ->
  (forall items, Forall P items -> P (DArray items)) ->
  (forall props, Forall (fun kv => P (snd kv)) props -> P (DObject props)) ->
  forall value, P value.
Proof.
  intros Hnull Hundef Hbool Hnum Hstr Hbuf Harr Hobj.
  fix IH 1. intros [ | | b | n | s | bytes | items | props].
  - apply Hnull.
  - apply Hundef.
  - apply Hbool.
  - apply Hnum.
  - apply Hstr.
  - apply Hbuf.
  - apply Harr. induction items as [|v items IHitems]; constructor; [apply IH|exact IHitems].
  - apply Hobj. induction props as [|[k v] props IHprops]; constructor;
      [apply IH|exact IHprops].
Qed.

Lemma map_ext_Forall {A B} (f g : A -> B) (l : list A) :
  Forall (fun x => f x = g x) l -> List.map f l = List.map g l.
Proof. induction 1 as [|x l Hx _ IH]; cbn; [reflexivity|now rewrite Hx, IH]. Qed.

Lemma stringify_no_buffer (value : jsData) :
  has_buffer (stringifyNestedBuffers value) = false.
Proof.
  unfold stringifyNestedBuffers.
  induction value as [ | | b | n | s | bytes | items IH | props IH] using jsData_induction;
    try reflexivity.
  - cbn [cloneDeepWith replacer has_buffer].
    induction IH as [|v items Hv _ IHitems]; [reflexivity|].
    cbn [List.map existsb]. now rewrite Hv, IHitems.
  - cbn [cloneDeepWith replacer has_buffer].
    induction IH as [|[k v] props Hv _ IHprops]; [reflexivity|].
    cbn [List.map existsb snd] in *. now rewrite Hv, IHprops.
Qed.

Lemma stringify_buffer_free (value : jsData) :
  has_buffer value = false -> stringifyNestedBuffers value = value.
Proof.
  unfold stringifyNestedBuffers.
  induction value as [ | | b | n | s | bytes | items IH | props IH] using jsData_induction;
    try reflexivity; try discriminate.
  - cbn [cloneDeepWith replacer has_buffer]. intros Hfree. f_equal.
    induction IH as [|v items Hv _ IHitems]; [reflexivity|].
    cbn [existsb] in Hfree. apply orb_false_iff in Hfree as [Hv' Hitems].
    cbn [List.map]. now rewrite Hv, IHitems.
  - cbn [cloneDeepWith replacer has_buffer]. intros Hfree. f_equal.
    induction IH as [|[k v] props Hv _ IHprops]; [reflexivity|].
    cbn [existsb snd] in *. apply orb_false_iff in Hfree as [Hv' Hprops].
    cbn [List.map]. now rewrite Hv, IHprops.
Qed.

(** X12. In the clone [stringifyNestedBuffers] returns no [Buffer] is
    left; a value without [Buffer] is cloned as it is; so applying the
    function twice is applying it once. *)
Theorem stringifyNestedBuffers_removes_buffers (value : jsData) :
  has_buffer (stringifyNestedBuffers value) = false
  /\ (has_buffer value = false -> stringifyNestedBuffers value = value)
  /\ stringifyNestedBuffers (stringifyNestedBuffers value) = stringifyNestedBuffers value.
Proof.
  split; [apply stringify_no_buffer|]. split; [apply stringify_buffer_free|].
  apply stringify_buffer_free, stringify_no_buffer.
Qed.

(** X13. The clone has the shape of the value: the same arrays and
    objects, with the same properties in the same order, and the same
    leaves, except that where the value has a [Buffer] the clone has a
    string, the base64 text of its bytes. *)
Theorem stringifyNestedBuffers_keeps_shape (value : jsData) :
  shape (stringifyNestedBuffers value) = shape value
  /\ (forall bytes, stringifyNestedBuffers (DBuffer bytes) = DString (Base64.encode bytes))
  /\ (forall props, exists props',
        stringifyNestedBuffers (DObject props) = DObject props'
        /\ List.map fst props' = List.map fst props)
  /\ (forall items, exists items',
        stringifyNestedBuffers (DArray items) = DArray items'
        /\ length items' = length items).
Proof.
  split; [|split; [reflexivity|split]].
  - unfold stringifyNestedBuffers.
    induction value as [ | | b | n | s | bytes | items IH | props IH] using jsData_induction;
      try reflexivity.
    + cbn [cloneDeepWith replacer shape]. f_equal. rewrite List.map_map.
      now apply map_ext_Forall.
    + cbn [cloneDeepWith replacer shape]. f_equal. rewrite List.map_map.
      apply map_ext_Forall. eapply Forall_impl; [exact IH|].
      intros [k v] Hv. cbn [snd] in Hv. now rewrite Hv.
  - intros props. eexists. split; [reflexivity|].
    rewrite List.map_map. apply map_ext_Forall, Forall_forall. now intros [k v] _.
  - intros items. eexists. split; [reflexivity|]. apply length_map.
Qed.

(** X14. Two buffers with different bytes never get the same text; the
    text of a buffer of [n] bytes has [4 * ceil(n / 3)] characters; the
    clone of a buffer is the clone of the string that is its text, so a
    clone does not tell the two apart. *)
Theorem stringifyNestedBuffers_buffer_text (b1 b2 : list byte) :
  (stringifyNestedBuffers (DBuffer b1) = stringifyNestedBuffers (DBuffer b2) -> b1 = b2)
  /\ String.length (Base64.encode b1) = (4 * ((length b1 + 2) / 3))%nat
  /\ stringifyNestedBuffers (DBuffer b1) = stringifyNestedBuffers (DString (Base64.encode b1)).
Proof.
  split; [|split; [|reflexivity]].
  - intros Heq. injection Heq as Heq. now apply base64_encode_inj.
  - unfold Base64.encode.
    rewrite string_of_list_ascii_length, base64_groups_length, length_map. reflexivity.
Qed.

Lemma stringifyNestedBuffers_removes_buffers_witness :
  stringifyNestedBuffers
    (DObject [("id", DNumber 7); ("tags", DArray [DString "a"; DNull])]%string)
  = DObject [("id", DNumber 7); ("tags", DArray [DString "a"; DNull])]%string.
Proof.
  apply (proj1 (proj2 (stringifyNestedBuffers_removes_buffers
    (DObject [("id", DNumber 7); ("tags", DArray [DString "a"; DNull])]%string)))).
  reflexivity.
Defined.

Lemma stringifyNestedBuffers_buffer_text_witness :
  [x68; x69] = [x68; x69].
Proof.
  apply (proj1 (stringifyNestedBuffers_buffer_text [x68; x69] [x68; x69])).
  reflexivity.
Defined.

(** The text of the three bytes of ["Man"], of two and of one of them. *)
Example stringifyNestedBuffers_example :
  stringifyNestedBuffers
    (DObject [("body", DBuffer [x4d; x61; x6e]);
              ("parts", DArray [DBuffer [x4d; x61]; DBuffer [x4d]; DBuffer []])]%string)
  = DObject [("body", DString "TWFu");
             ("parts", DArray [DString "TWE="; DString "TQ=="; DString ""])]%string.
Proof. vm_compute. reflexivity. Qed.

(** ** More on [promiseHash] and [promiseTimeout] *)

Section PromiseMore.

Context {A : Type}.
Implicit Types (p : promise A) (ps : list (promise A))
               (hash : gmap string (promise A)).

Lemma no_rejection_filter ps :
  (forall t e, Some (t, Rejected e) ∉ ps) ->
  filter (fun p => is_rejected p = true) ps = [].
Proof.
  induction ps as [|p ps IH]; intros Hno; [reflexivity|].
  rewrite filter_cons_False.
  - apply IH. intros t e Hin. apply (Hno t e). now right.
  - destruct p as [[t [v|e]]|]; cbn; try discriminate.
    intros _. apply (Hno t e). left.
Qed.

Lemma fulfilled_values_None ps :
  fulfilled_values ps = None <->
  exists p, p ∈ ps /\ fulfilled_value p = None.
Proof.
  induction ps as [|p ps IH]; cbn [fulfilled_values].
  - split; [discriminate|]. intros (p & Hp & _). inversion Hp.
  - destruct p as [[t [v|e]]|].
    + destruct (fulfilled_values ps) as [[t' vs]|].
      * split; [discriminate|]. intros (p & [->|Hp]%elem_of_cons & Hnone);
          [discriminate|].
        assert (Some (t', vs) = @None (nat * list A)) as Habs
          by (apply IH; now exists p).
        discriminate Habs.
      * split; [|reflexivity]. intros _.
        destruct (proj1 IH eq_refl) as (p & Hp & Hnone). exists p. split; [now right|exact Hnone].
    + split; [|reflexivity]. intros _. exists (Some (t, Rejected e)). split; [left|reflexivity].
    + split; [|reflexivity]. intros _. exists None. split; [left|reflexivity].
Qed.

(** [Promise.all] stays pending exactly when nothing is rejected and
    something stays pending. *)
Lemma all_pending ps :
  Promise.all ps = None <->
  (forall t e, Some (t, Rejected e) ∉ ps) /\ None ∈ ps.
Proof.
  split.
  - intros Hall.
    assert (Hno : forall t e, Some (t, Rejected e) ∉ ps).
    { intros t e Hin. destruct (all_rejected ps t e Hin) as (t' & e' & Heq & _).
      congruence. }
    split; [exact Hno|].
    unfold Promise.all in Hall. rewrite (no_rejection_filter ps Hno) in Hall.
    cbn [earliest] in Hall.
    destruct (fulfilled_values ps) as [[t vs]|] eqn:Hv; [discriminate|].
    apply fulfilled_values_None in Hv as (p & Hp & Hnone).
    destruct p as [[t [v|e]]|]; [discriminate| |exact Hp].
    exfalso. exact (Hno t e Hp).
  - intros [Hno Hin]. unfold Promise.all.
    rewrite (no_rejection_filter ps Hno). cbn [earliest].
    assert (fulfilled_values ps = None) as ->; [|reflexivity].
    apply fulfilled_values_None. now exists None.
Qed.

(** What [Promise.all] is settled with comes from the promises. *)
Lemma all_settled_from ps t s :
  Promise.all ps = Some (t, s) ->
  match s with
  | Rejected e => Some (t, Rejected e) ∈ ps
  | Fulfilled vs =>
      fulfilled_values ps = Some (t, vs)
  end.
Proof.
  unfold Promise.all. intros Hall.
  destruct (earliest (filter _ ps)) as [[t' [v|e]]|] eqn:He.
  - apply earliest_Some in He as [Hin _].
    apply list_elem_of_filter in Hin as [Hrej _]. discriminate Hrej.
  - injection Hall as <- <-. apply earliest_Some in He as [Hin _].
    now apply list_elem_of_filter in Hin as [_ Hin].
  - destruct (fulfilled_values ps) as [[t'' vs]|]; [|discriminate].
    now injection Hall as <- <-.
Qed.

Lemma hash_values_elem hash p :
  p ∈ (map_to_list hash).*2 <-> exists k, hash !! k = Some p.
Proof.
  rewrite list_elem_of_fmap. split.
  - intros ([k p'] & -> & Hkp). exists k. now apply elem_of_map_to_list.
  - intros [k Hk]. exists (k, p). split; [reflexivity|].
    now apply elem_of_map_to_list.
Qed.

Lemma promiseHash_then hash :
  exists f, promiseHash hash = then_ (Promise.all (map_to_list hash).*2) f.
Proof. unfold promiseHash. rewrite vals_of_keys. eexists. reflexivity. Qed.

(** X15. The aggregate stays pending for ever exactly when no operation
    fails and at least one never completes; for an object without
    property it is fulfilled at once with an empty object. *)
Theorem promiseHash_pending hash :
  (promiseHash hash = None <->
   (forall k t e, hash !! k <> Some (Some (t, Rejected e)))
   /\ exists k, hash !! k = Some None)
  /\ promiseHash (∅ : gmap string (promise A)) = Some (0%nat, Fulfilled ∅).
Proof.
  split.
  - destruct (promiseHash_then hash) as [f ->].
    assert (Hthen : forall q, then_ q f = None <-> q = None).
    { intros [[t [v|e]]|]; cbn; split; congruence. }
    rewrite Hthen, all_pending, hash_values_elem. split.
    + intros [Hno Hpend]. split; [|exact Hpend].
      intros k t e Hk. apply (Hno t e). apply hash_values_elem. now exists k.
    + intros [Hno Hpend]. split; [|exact Hpend].
      intros t e [k Hk]%hash_values_elem. exact (Hno k t e Hk).
  - unfold promiseHash. rewrite map_to_list_empty. reflexivity.
Qed.


Lemma promiseTimeout_instant (timeout : Z) p :
  exists t s,
    promiseTimeout timeout p = Some (t, s)
    /\ (t <= setTimeout_delay timeout)%nat.
Proof.
  unfold promiseTimeout, race, rejected_after. cbn [earliest].
  destruct p as [[t s]|].
  - destruct (Nat.leb_spec t (setTimeout_delay timeout)).
    + now exists t, s.
    + eexists _, _. split; [reflexivity|lia].
  - eexists _, _. split; [reflexivity|lia].
Qed.

(** X17. [promiseTimeout] never stays pending: it settles no later than
    the timer, either as the promise does or with the timeout error at the
    instant of the timer, and with nothing else. *)
Theorem promiseTimeout_always_settles (timeout : Z) p :
  exists t s,
    promiseTimeout timeout p = Some (t, s)
    /\ (t <= setTimeout_delay timeout)%nat
    /\ (p = Some (t, s)
        \/ (t = setTimeout_delay timeout /\ s = Rejected (TimeoutExceeded timeout))).
Proof.
  unfold promiseTimeout, race, rejected_after. cbn [earliest].
  destruct p as [[t s]|].
  - destruct (Nat.leb_spec t (setTimeout_delay timeout)).
    + exists t, s. split; [reflexivity|]. split; [assumption|now left].
    + eexists _, _. split; [reflexivity|]. split; [reflexivity|now right].
  - eexists _, _. split; [reflexivity|]. split; [reflexivity|now right].
Qed.

(** X18. When every operation is given to [promiseTimeout] with the same
    timeout, the aggregate never stays pending either: it settles no
    later than the timers. *)
Theorem promiseHash_of_bounded_settles (timeout : Z) hash :
  exists t s,
    promiseHash (promiseTimeout timeout <$> hash) = Some (t, s)
    /\ (t <= setTimeout_delay timeout)%nat.
Proof.
  set (bounded := promiseTimeout timeout <$> hash).
  assert (Hbound : forall p, p ∈ (map_to_list bounded).*2 ->
            exists t s, p = Some (t, s) /\ (t <= setTimeout_delay timeout)%nat).
  { intros p [k Hk]%hash_values_elem. unfold bounded in Hk.
    rewrite lookup_fmap_Some in Hk. destruct Hk as (q & <- & _).
    apply promiseTimeout_instant. }
  destruct (promiseHash_then bounded) as [f ->].
  destruct (Promise.all (map_to_list bounded).*2) as [[t [vs|e]]|] eqn:Hall.
  - eexists _, _. split; [reflexivity|].
    apply all_settled_from in Hall.
    destruct (fulfilled_values_time _ _ _ Hall) as [_ [Hnil|[v Hv]]].
    + rewrite Hnil in Hall. cbn in Hall. injection Hall as <- _. lia.
    + destruct (Hbound _ Hv) as (t' & s' & [= <- <-] & Hle). exact Hle.
  - eexists _, _. split; [reflexivity|].
    apply all_settled_from in Hall.
    destruct (Hbound _ Hall) as (t' & s' & [= <- <-] & Hle). exact Hle.
  - apply all_pending in Hall as [_ Hnone].
    destruct (Hbound _ Hnone) as (t' & s' & [=] & _).
Qed.

(** X19. A timeout below 1 or above 2147483647 does not wait at all: the
    timer fires after one millisecond, and an operation that takes longer
    is rejected then, with the timeout as given in the message. *)
Theorem promiseTimeout_out_of_range (timeout : Z) p :
  (timeout < 1 \/ 2147483647 < timeout)%Z ->
  setTimeout_delay timeout = 1%nat
  /\ (forall t s, p = Some (t, s) -> (1 < t)%nat ->
        promiseTimeout timeout p = Some (1%nat, Rejected (TimeoutExceeded timeout)))
  /\ (forall s, p = Some (0%nat, s) -> promiseTimeout timeout p = Some (0%nat, s)).
Proof.
  intros Hrange.
  assert (Hdelay : setTimeout_delay timeout = 1%nat).
  { unfold setTimeout_delay.
    destruct (Z.ltb_spec timeout 1); [reflexivity|].
    destruct (Z.ltb_spec 2147483647 timeout); [reflexivity|lia]. }
  split; [exact Hdelay|].
  unfold promiseTimeout, race, rejected_after. cbn [earliest]. rewrite Hdelay.
  split.
  - intros t s -> Ht. destruct (Nat.leb_spec t 1); [lia|reflexivity].
  - intros s ->. reflexivity.
Qed.

(** X20. Of two nested timeouts the one whose timer fires first decides:
    the other could as well not be there. *)
Theorem promiseTimeout_nested (outer inner : Z) p :
  ((setTimeout_delay inner <= setTimeout_delay outer)%nat ->
   promiseTimeout outer (promiseTimeout inner p) = promiseTimeout inner p)
  /\ ((setTimeout_delay outer < setTimeout_delay inner)%nat ->
      promiseTimeout outer (promiseTimeout inner p) = promiseTimeout outer p).
Proof.
  unfold promiseTimeout, race, rejected_after. cbn [earliest].
  split; intros Hle; destruct p as [[t s]|]; cbn;
    repeat match goal with
           | |- context [(?a <=? ?b)%nat] => destruct (Nat.leb_spec a b); cbn
           end;
    try reflexivity; try lia.
Qed.

End PromiseMore.

Lemma promiseHash_pending_witness :
  promiseHash one_never_completes = None.
Proof.
  apply (proj1 (promiseHash_pending one_never_completes)). split.
  - intros k t e Hk. unfold one_never_completes in Hk.
    apply lookup_insert_Some in Hk as [[_ [=]]|[_ Hk]].
    apply lookup_insert_Some in Hk as [[_ [=]]|[_ Hk]].
    rewrite lookup_empty in Hk. discriminate.
  - exists "c"%string. reflexivity.
Defined.


Lemma promiseTimeout_out_of_range_witness :
  promiseTimeout 3000000000 (Some (2%nat, Fulfilled 1%nat))
  = Some (1%nat, Rejected (Error "Timeout of 3000000000ms exceeded")).
Proof.
  destruct (promiseTimeout_out_of_range 3000000000 (Some (2%nat, Fulfilled 1%nat)))
    as (_ & Hlate & _); [right; lia|].
  apply (Hlate 2%nat (Fulfilled 1%nat)); [reflexivity|lia].
Defined.

Lemma promiseTimeout_nested_witness :
  promiseTimeout 100 (promiseTimeout 10 (@None (nat * settlement nat)))
  = promiseTimeout 10 None
  /\ promiseTimeout 10 (promiseTimeout 100 (@None (nat * settlement nat)))
     = promiseTimeout 10 None.
Proof.
  split.
  - apply (proj1 (promiseTimeout_nested 100 10 (@None (nat * settlement nat)))).
    cbn. lia.
  - apply (proj2 (promiseTimeout_nested 10 100 (@None (nat * settlement nat)))).
    cbn. lia.
Defined.

(** ** More on the multihash helpers *)

Lemma map_to_N_of_N_wrap (ds : list N) :
  Forall (fun d => d < 256) ds ->
  List.map Byte.to_N (List.map Bytes.of_N_wrap ds) = ds.
Proof.
  induction 1 as [|d ds Hd _ IH]; [reflexivity|].
  cbn [List.map]. now rewrite to_N_of_N_wrap, IH.
Qed.

Lemma digit_char_char_digit c d :
  Base58.char_digit c = Some d -> Base58.digit_char d = c /\ d < Base58.BASE.
Proof.
  intros Hc.
  assert (Hall : forallb
            (fun n => match Base58.char_digit (ascii_of_nat n) with
                      | Some d' => Ascii.eqb (Base58.digit_char d') (ascii_of_nat n)
                                   && (d' <? Base58.BASE)
                      | None => true
                      end) (seq 0 256) = true) by (vm_compute; reflexivity).
  rewrite forallb_forall in Hall.
  specialize (Hall (nat_of_ascii c)). rewrite ascii_nat_embedding, Hc in Hall.
  assert (Hin : In (nat_of_ascii c) (seq 0 256)).
  { apply in_seq. pose proof (nat_ascii_bounded c). lia. }
  apply Hall in Hin. apply andb_true_iff in Hin as [Heq Hlt].
  split; [now apply Ascii.eqb_eq|now apply N.ltb_lt].
Qed.

Lemma digit_chars_chars_digits cs ds :
  Base58.chars_digits cs = Some ds ->
  List.map Base58.digit_char ds = cs /\ Forall (fun d => d < Base58.BASE) ds.
Proof.
  revert ds. induction cs as [|c cs IH]; intros ds; cbn [Base58.chars_digits].
  - intros [= <-]. split; [reflexivity|constructor].
  - destruct (Base58.char_digit c) as [d|] eqn:Hc; [|discriminate].
    destruct (Base58.chars_digits cs) as [ds'|]; [|discriminate].
    intros [= <-]. destruct (IH _ eq_refl) as [Hmap Hall].
    destruct (digit_char_char_digit _ _ Hc) as [Hd Hlt].
    split; [cbn [List.map]; now rewrite Hd, Hmap|now constructor].
Qed.

(** Encoding what [decode] read gives the text back: every base58 text is
    the text of its bytes. *)
Lemma base58_encode_decode (s : string) (buf : list byte) :
  Base58.decode s = Returns buf -> Base58.encode buf = s.
Proof.
  unfold Base58.decode.
  destruct (Base58.chars_digits (list_ascii_of_string s)) as [ds|] eqn:Hds;
    [|discriminate].
  intros [= <-]. apply digit_chars_chars_digits in Hds as [Hchars Hlt].
  destruct (leading_zeros_split ds) as [Hsplit Hcanon].
  set (z := Bytes.leading_zeros ds) in *. set (rest := skipn z ds) in *.
  assert (Hrest : Forall (fun d => d < Base58.BASE) rest).
  { rewrite Hsplit in Hlt. now apply Forall_app in Hlt. }
  set (n := Bytes.from_digits Base58.BASE ds).
  assert (Hn : n = Bytes.from_digits Base58.BASE rest).
  { unfold n. rewrite Hsplit at 1. apply from_digits_zeros. }
  unfold Base58.encode.
  rewrite List.map_app, map_repeat, map_to_N_of_N_wrap
    by (apply to_digits_bound; discriminate).
  change (Byte.to_N x00) with 0.
  rewrite leading_zeros_zeros by (apply to_digits_canonical; discriminate).
  rewrite (leading_zeros_canonical (Bytes.to_digits 256 n))
    by (apply to_digits_canonical; discriminate).
  rewrite Nat.add_0_r, from_digits_zeros, to_digits_value by discriminate.
  rewrite Hn, to_digits_of_digits by (discriminate || assumption).
  replace (repeat "1"%char z) with (List.map Base58.digit_char (repeat 0 z))
    by apply map_repeat.
  rewrite <- List.map_app, <- Hsplit, Hchars.
  apply string_of_list_ascii_of_string.
Qed.

(** X21. A string that [isB58Multihash] accepts is the base58 text of a
    valid multihash, and of no other buffer: the check leaves no room for
    two spellings of one multihash. *)
Theorem isB58Multihash_accepts_texts_of_multihashes (str : string) :
  isB58Multihash str = true ->
  exists mh,
    Multihash.validate mh = Returns tt
    /\ Multihash.toB58String mh = str
    /\ (forall mh', Multihash.toB58String mh' = str -> mh' = mh)
    /\ (forall str', Multihash.fromB58String str' = Returns mh -> str' = str).
Proof.
  intros (mh & Hdecode & Hvalid)%isB58Multihash_true.
  exists mh. split; [exact Hvalid|].
  split; [exact (base58_encode_decode _ _ Hdecode)|]. split.
  - intros mh' Hmh'.
    pose proof (fromB58String_toB58String mh') as Hback.
    rewrite Hmh' in Hback. congruence.
  - intros str' Hstr'. apply base58_encode_decode in Hstr'.
    apply base58_encode_decode in Hdecode. congruence.
Qed.

Lemma isB58Multihash_accepts_texts_of_multihashes_witness :
  exists mh,
    Multihash.validate mh = Returns tt
    /\ Multihash.toB58String mh = empty_multihash_text.
Proof.
  destruct (isB58Multihash_accepts_texts_of_multihashes empty_multihash_text)
    as (mh & Hvalid & Htext & _); [vm_compute; reflexivity|].
  now exists mh.
Defined.

(** X22. Two buffers get the same multihash text exactly when they have
    the same SHA-256 digest. *)
Theorem b58MultihashForBuffer_same_text (a b : list byte) :
  b58MultihashForBuffer a = b58MultihashForBuffer b
  <-> SHA256.sha256 a = SHA256.sha256 b.
Proof.
  rewrite !b58MultihashForBuffer_returns. split.
  - intros [= Heq].
    pose proof (fromB58String_toB58String (x12 :: x20 :: SHA256.sha256 a)) as Ha.
    rewrite Heq, fromB58String_toB58String in Ha. congruence.
  - now intros ->.
Qed.

(** X23. [isB58Multihash] checks the length byte against the number of
    bytes that follow, not against the size of the digests of the hash
    function: with a recognized tag, any digest of 1 to 127 bytes makes a
    text that is accepted. *)
Theorem isB58Multihash_any_digest_length (tag : byte) (digest : list byte) :
  Multihash.isValidCode (Byte.to_N tag) = true ->
  (1 <= length digest <= 127)%nat ->
  isB58Multihash
    (Multihash.toB58String
       (tag :: Bytes.of_N_wrap (N.of_nat (length digest)) :: digest)) = true.
Proof.
  intros Htag Hlen. apply isB58Multihash_toB58String, validate_returns.
  eexists _, _, _. split; [reflexivity|]. split; [exact Hlen|]. split; [exact Htag|].
  symmetry. apply to_N_of_N_wrap. lia.
Qed.

Lemma isB58Multihash_any_digest_length_witness :
  isB58Multihash (Multihash.toB58String [x12; x01; xff]) = true.
Proof.
  apply (isB58Multihash_any_digest_length x12 [xff]); [reflexivity|cbn; lia].
Defined.

Lemma from_digits_app base (xs ys : list N) :
  Bytes.from_digits base (xs ++ ys)
  = Bytes.from_digits base xs * base ^ N.of_nat (length ys) + Bytes.from_digits base ys.
Proof.
  induction ys as [|y ys IH] using rev_ind.
  - rewrite app_nil_r. cbn. lia.
  - rewrite app_assoc, !from_digits_snoc, IH, length_app.
    cbn [length]. rewrite Nat.add_1_r, Nnat.Nat2N.inj_succ, N.pow_succ_r'. lia.
Qed.

Lemma from_digits_upper base (ds : list N) :
  Forall (fun d => d < base) ds ->
  Bytes.from_digits base ds < base ^ N.of_nat (length ds).
Proof.
  induction ds as [|d ds IH] using rev_ind; intros Hall.
  - cbn. lia.
  - apply Forall_app in Hall as [Hds Hd]. apply Forall_cons in Hd as [Hd _].
    specialize (IH Hds). rewrite from_digits_snoc, length_app.
    cbn [length]. rewrite Nat.add_1_r, Nnat.Nat2N.inj_succ, N.pow_succ_r'. nia.
Qed.

(** The size of a number fixes the number of its digits. *)
Lemma to_digits_length base n k :
  2 <= base -> base ^ N.of_nat k <= n < base ^ N.of_nat (S k) ->
  length (Bytes.to_digits base n) = S k.
Proof.
  intros Hbase [Hlo Hhi].
  pose proof (to_digits_value base Hbase n) as Hval.
  pose proof (to_digits_bound base Hbase n) as Hlt.
  pose proof (to_digits_canonical base Hbase n) as Hcanon.
  set (ds := Bytes.to_digits base n) in *.
  pose proof (from_digits_upper base ds Hlt) as Hup. rewrite Hval in Hup.
  assert (Hm1 : (k < length ds)%nat).
  { assert (base ^ N.of_nat k < base ^ N.of_nat (length ds)) as Hpow by lia.
    apply N.pow_lt_mono_r_iff in Hpow; lia. }
  destruct ds as [|d rest]; [cbn in Hm1; lia|].
  assert (Hd : d <> 0) by (intros ->; now apply Hcanon).
  change (d :: rest) with ([d] ++ rest) in Hval. rewrite from_digits_app in Hval.
  change (Bytes.from_digits base [d]) with (0 * base + d) in Hval.
  assert (Hlow : base ^ N.of_nat (length rest) <= n) by nia.
  assert (base ^ N.of_nat (length rest) < base ^ N.of_nat (S k)) as Hpow by lia.
  apply N.pow_lt_mono_r_iff in Hpow; [|lia]. cbn [length] in *. lia.
Qed.

Lemma multihash_digits (digest : list byte) :
  length digest = 32%nat ->
  exists rest,
    Bytes.to_digits Base58.BASE
      (Bytes.from_digits 256 (List.map Byte.to_N (x12 :: x20 :: digest)))
    = 23 :: 44 :: rest
    /\ length rest = 44%nat.
Proof.
  intros Hlen.
  set (n := Bytes.from_digits 256 (List.map Byte.to_N (x12 :: x20 :: digest))).
  assert (Hn : 4640 * 2 ^ 256 <= n < 4641 * 2 ^ 256).
  { unfold n. change (List.map Byte.to_N (x12 :: x20 :: digest))
      with ([18; 32] ++ List.map Byte.to_N digest).
    rewrite from_digits_app, length_map, Hlen.
    pose proof (from_digits_upper 256 _ (to_N_lt_256 digest)) as Hup.
    rewrite length_map, Hlen in Hup.
    change (Bytes.from_digits 256 [18; 32]) with 4640.
    change (256 ^ N.of_nat 32) with (2 ^ 256) in *. lia. }
  assert (Hbase : 2 <= Base58.BASE) by discriminate.
  pose proof (to_digits_value _ Hbase n) as Hval.
  pose proof (to_digits_bound _ Hbase n) as Hlt.
  assert (Hsize : length (Bytes.to_digits Base58.BASE n) = 46%nat).
  { apply to_digits_length; [exact Hbase|].
    assert (Base58.BASE ^ N.of_nat 45 <= 4640 * 2 ^ 256) by (vm_compute; discriminate).
    assert (4641 * 2 ^ 256 <= Base58.BASE ^ N.of_nat 46) by (vm_compute; discriminate).
    lia. }
  destruct (Bytes.to_digits Base58.BASE n) as [|d1 [|d2 rest]];
    [discriminate Hsize..|].
  apply Forall_cons in Hlt as [Hd1 Hlt]. apply Forall_cons in Hlt as [Hd2 Hlt].
  change (d1 :: d2 :: rest) with ([d1; d2] ++ rest) in Hval.
  rewrite from_digits_app in Hval.
  cbn [length] in Hsize. injection Hsize as Hsize. rewrite Hsize in Hval.
  pose proof (from_digits_upper _ _ Hlt) as Hup. rewrite Hsize in Hup.
  change (Bytes.from_digits Base58.BASE [d1; d2]) with ((0 * 58 + d1) * 58 + d2) in Hval.
  unfold Base58.BASE in *.
  set (unit := 58 ^ N.of_nat 44) in *.
  assert (Hq : (0 * 58 + d1) * 58 + d2 = n / unit).
  { apply (N.div_unique n unit _ (Bytes.from_digits 58 rest)); [exact Hup|lia]. }
  assert (Hquot : n / unit = 1378).
  { apply N.le_antisymm.
    - transitivity ((4641 * 2 ^ 256 - 1) / unit).
      + apply N.Div0.div_le_mono. lia.
      + vm_compute. discriminate.
    - transitivity ((4640 * 2 ^ 256) / unit).
      + vm_compute. discriminate.
      + apply N.Div0.div_le_mono. lia. }
  exists rest. split; [|exact Hsize].
  assert (d1 = 23 /\ d2 = 44) as [-> ->] by lia. reflexivity.
Qed.

(** X24. For every buffer the text [b58MultihashForBuffer] returns has 46
    characters and starts with ["Qm"]. *)
Theorem b58MultihashForBuffer_starts_with_Qm (buf : list byte) :
  exists tail,
    b58MultihashForBuffer buf = Returns ("Qm" +:+ tail)
    /\ String.length tail = 44%nat.
Proof.
  rewrite b58MultihashForBuffer_returns.
  unfold Multihash.toB58String, Base58.encode.
  destruct (multihash_digits (SHA256.sha256 buf) (sha256_length buf))
    as (rest & -> & Hrest).
  exists (string_of_list_ascii (List.map Base58.digit_char rest)). split.
  - reflexivity.
  - now rewrite string_of_list_ascii_length, length_map.
Qed.

(** ** More on the [oracle] command *)

Lemma filter_bool {X} (f : X -> bool) (l : list X) :
  List.filter f l = filter (fun x => f x = true) l.
Proof.
  induction l as [|x l IH]; [reflexivity|].
  cbn [List.filter]. destruct (f x) eqn:Hx.
  - rewrite filter_cons_True by exact Hx. now rewrite IH.
  - rewrite filter_cons_False by congruence. exact IH.
Qed.

Ltac in_cases H :=
  cbn in H;
  repeat match type of H with
         | _ \/ _ => destruct H as [H|H]; [try discriminate H|]
         | False => destruct H
         end.

(** X25. The only exit status the command ever produces is 1, and only
    when [bootstrap] fails; no rejection is left unhandled: the chain of
    promises ends normally, by that exit, or waits on a promise that never
    settles. *)
Theorem oracle_exit_status (w : world) (o : Oracle.opts) :
  (forall code, In (ProcessExit code) (trace_of (Oracle.handler w o)) ->
     code = 1%Z /\ exists t e, bootstrap_settles w = Some (t, Rejected e))
  /\ (forall e, outcome_of (Oracle.handler w o) <> Abrupt e)
  /\ (outcome_of (Oracle.handler w o) = Exited 1
      <-> exists t e, bootstrap_settles w = Some (t, Rejected e)).
Proof.
  split; [|split].
  - intros code Hin.
    assert (Hf : In (ProcessExit code)
                    (List.filter is_exit (trace_of (Oracle.handler w o)))).
    { apply filter_In. now split. }
    rewrite filter_bool in Hf. destruct (oracle_handler_effects w o) as (_ & _ & Hexit).
    rewrite Hexit in Hf.
    destruct (bootstrap_settles w) as [[t [nr|e]]|]; try (now destruct Hf).
    destruct Hf as [[= <-]|[]]. split; [reflexivity|now exists t, e].
  - intros e.
    destruct w as [[[tb [[[d] [r|]]|eb]]|] [[ts [[]|es]]|] [[tc [[]|ec]]|]
                   [e1|] [e2|] [e3|] ic ep];
      try destruct d; discriminate.
  - split.
    + destruct w as [[[tb [[[d] [r|]]|eb]]|] [[ts [[]|es]]|] [[tc [[]|ec]]|]
                     [e1|] [e2|] [e3|] ic ep];
        try destruct d; cbn; intros Hout; try discriminate Hout;
        eexists _, _; reflexivity.
    + intros (t & e & Hb). unfold outcome_of.
      now rewrite (oracle_bootstrap_failure_exits w o t e Hb).
Qed.

Lemma oracle_exit_status_witness :
  outcome_of (Oracle.handler bootstrap_fails_world oracle_opts) = Exited 1.
Proof.
  apply (proj2 (proj2 (oracle_exit_status bootstrap_fails_world oracle_opts))).
  now eexists _, _.
Defined.

(** X26. The steps of the start-up come in order: a connection to the
    remote peer is opened only when [bootstrap] gave one and once
    [node.start()] is fulfilled; ["Connected to"] is logged only once that
    connection is fulfilled; the ethereum client is built only once the
    node has started; and without a remote peer no connection is opened. *)
Theorem oracle_startup_order (w : world) (o : Oracle.opts) :
  (forall info, In (NodeOpenConnection info) (trace_of (Oracle.handler w o)) ->
     (exists t n, bootstrap_settles w = Some (t, Fulfilled (n, Some (Remote info))))
     /\ exists t, start_settles w = Some (t, Fulfilled tt))
  /\ (forall v, In (ConsoleLog [VString "Connected to "; v])
                   (trace_of (Oracle.handler w o)) ->
        v = Oracle.optional_string (Oracle.remotePeer o)
        /\ exists t, openConnection_settles w = Some (t, Fulfilled tt))
  /\ (In NewWeb3 (trace_of (Oracle.handler w o)) ->
        exists t, start_settles w = Some (t, Fulfilled tt))
  /\ (forall t n, bootstrap_settles w = Some (t, Fulfilled (n, None)) ->
        forall info, ~ In (NodeOpenConnection info) (trace_of (Oracle.handler w o))).
Proof.
  destruct w as [[[tb [[[d] [[r]|]]|eb]]|] [[ts [[]|es]]|] [[tc [[]|ec]]|]
                 [e1|] [e2|] [e3|] ic ep];
    try destruct d;
    (split; [|split; [|split]];
     [ intros info Hin; in_cases Hin; injection Hin as <-;
       (split; [eexists _, _; reflexivity|eexists; reflexivity])
     | intros v Hin; in_cases Hin; injection Hin as <-;
       (split; [reflexivity|eexists; reflexivity])
     | intros Hin; in_cases Hin; eexists; reflexivity
     | intros t n Hb info Hin; try discriminate Hb; in_cases Hin ]).
Qed.

Lemma oracle_startup_order_witness :
  exists t, start_settles rpc_down_world = Some (t, Fulfilled tt).
Proof.
  apply (proj1 (proj2 (proj2 (oracle_startup_order rpc_down_world oracle_opts)))).
  cbn. tauto.
Defined.

(** X27. When [node.start()] or the connection to the remote peer is
    rejected, the error is handed to [console.log] and that is all: the
    ethereum client is never built, the process does not exit and the
    chain of promises ends normally.  When [node.start()] never settles
    the command waits for ever. *)
Theorem oracle_start_failure_is_logged (w : world) (o : Oracle.opts) tb n r :
  bootstrap_settles w = Some (tb, Fulfilled (n, r)) ->
  (forall t e, start_settles w = Some (t, Rejected e) ->
     List.last (trace_of (Oracle.handler w o)) NodeStart = ConsoleLog [VError e]
     /\ ~ In NewWeb3 (trace_of (Oracle.handler w o))
     /\ outcome_of (Oracle.handler w o) = Normal tt)
  /\ (forall t t' e, r <> None -> start_settles w = Some (t, Fulfilled tt) ->
        openConnection_settles w = Some (t', Rejected e) ->
        List.last (trace_of (Oracle.handler w o)) NodeStart = ConsoleLog [VError e]
        /\ ~ In NewWeb3 (trace_of (Oracle.handler w o))
        /\ outcome_of (Oracle.handler w o) = Normal tt)
  /\ (start_settles w = None ->
      outcome_of (Oracle.handler w o) = Pending
      /\ ~ In NewWeb3 (trace_of (Oracle.handler w o))).
Proof.
  intros Hb.
  destruct w as [b [[ts [[]|es]]|] [[tc [[]|ec]]|] [e1|] [e2|] [e3|] ic ep];
    cbn in Hb; subst b; destruct n as [[d|]], r as [[info]|];
    (split; [|split];
     [ intros t e Hs; try discriminate Hs; injection Hs as _ <-;
       (split; [reflexivity|split; [intros Hin; in_cases Hin|reflexivity]])
     | intros t t' e Hr Hs Hc; try discriminate Hs; try discriminate Hc;
       try (now contradiction Hr); injection Hc as _ <-;
       (split; [reflexivity|split; [intros Hin; in_cases Hin|reflexivity]])
     | intros Hs; try discriminate Hs;
       (split; [reflexivity|intros Hin; in_cases Hin]) ]).
Qed.

Lemma oracle_start_failure_is_logged_witness :
  outcome_of
    (Oracle.handler
       (World (Some (0%nat, Fulfilled (Node None, Some (Remote "peer"))))
              (Some (1%nat, Fulfilled tt))
              (Some (2%nat, Rejected (Error "dial failed")))
              None None None true (fun _ => None))
       oracle_opts) = Normal tt.
Proof.
  destruct (oracle_start_failure_is_logged
              (World (Some (0%nat, Fulfilled (Node None, Some (Remote "peer"))))
                     (Some (1%nat, Fulfilled tt))
                     (Some (2%nat, Rejected (Error "dial failed")))
                     None None None true (fun _ => None))
              oracle_opts 0%nat (Node None) (Some (Remote "peer")) eq_refl)
    as (_ & Hconn & _).
  apply (Hconn 1%nat 2%nat (Error "dial failed")); [discriminate|reflexivity..].
Defined.

(** ** More on the [publishRaw] command *)

(** X28. When the publish is fulfilled the handler hands the response, as
    it is, to [console.log] and writes nothing to the standard error; in
    every run it writes at most one console entry, after its one request;
    and what it does depends on the answer to that request alone. *)
Theorem publishRaw_logs_the_response (w : world) (o : PublishRaw.opts) :
  (forall t body, endpoint_settles w 0 = Some (t, Fulfilled body) ->
     run (PublishRaw.handler w o) []
     = ([HttpPublish (PublishRaw.peerUrl o) (PublishRaw.namespace o)
                     (Statement (PublishRaw.statementBodyId o));
         ConsoleLog [VResponse body]], Normal tt))
  /\ (length (trace_of (PublishRaw.handler w o)) <= 2)%nat
  /\ (forall e, outcome_of (PublishRaw.handler w o) <> Abrupt e)
  /\ (forall w', endpoint_settles w' 0 = endpoint_settles w 0 ->
        run (PublishRaw.handler w' o) [] = run (PublishRaw.handler w o) []).
Proof.
  pose proof (publishRaw_run w o) as Hrun. cbn zeta in Hrun.
  unfold trace_of, outcome_of. rewrite Hrun. repeat split.
  - intros t body ->. reflexivity.
  - destruct (endpoint_settles w 0) as [[t [body|e]]|]; cbn; lia.
  - intros e. destruct (endpoint_settles w 0) as [[t [body|e']]|]; discriminate.
  - intros w' Hsame. pose proof (publishRaw_run w' o) as Hrun'. cbn zeta in Hrun'.
    now rewrite Hrun', Hsame.
Qed.

Lemma publishRaw_logs_the_response_witness :
  run (PublishRaw.handler
         (World None None None None None None true
                (fun _ => Some (4%nat, Fulfilled "published"%string)))
         publish_opts) []
  = ([HttpPublish "http://localhost:9002" "scratch.test" (Statement empty_multihash_text);
      ConsoleLog [VResponse "published"]], Normal tt).
Proof.
  apply (proj1 (publishRaw_logs_the_response
                  (World None None None None None None true
                         (fun _ => Some (4%nat, Fulfilled "published"%string)))
                  publish_opts) 4%nat "published"%string).
  reflexivity.
Defined.

Lemma setUnion_members_witness :
  setUnion [@nil nat; []] = [].
Proof.
  apply (proj2 (proj2 (proj2 (setUnion_members [@nil nat; []])))).
  intros s Hs. rewrite !elem_of_cons in Hs.
  destruct Hs as [->|[->|Hs]]; [reflexivity..|inversion Hs].
Defined.
